(** * HackSRM-DataHaven: credential authorization protocol

    Shallow embedding of the two client scripts ([govt.py], [issuer.py]),
    of the library primitives they call (Keccak-256, packed encoding,
    EIP-191 prefixing, secp256k1 signing, JSON serialization) and of the
    verifier contract they talk to. *)

From Stdlib Require Import ZArith List Lia Bool Ascii String.
From Bignums Require Import BigZ.
From stdpp Require Import base gmap list.

Local Open Scope Z_scope.

(** ** Bytes

    A byte string is a list of integers in [0, 256). *)

Abbreviation bytes := (list Z).

Definition is_byte (b : Z) : Prop := 0 <= b < 256.

Definition wf_bytes (bs : bytes) : Prop := Forall is_byte bs.

(** Big-endian value of a byte string (Python's [int.from_bytes(_, "big")]). *)
Definition big_endian_to_int (bs : bytes) : Z :=
  fold_left (fun acc b => acc * 256 + b) bs 0.

(** The [n] low-order bytes of [x], most significant first. *)
Fixpoint be_bytes (n : nat) (x : Z) : bytes :=
  match n with
  | O => []
  | S n' => be_bytes n' (x / 256) ++ [x mod 256]
  end.

(** The [n] low-order bytes of [x], least significant first. *)
Fixpoint le_bytes (n : nat) (x : Z) : bytes :=
  match n with
  | O => []
  | S n' => (x mod 256) :: le_bytes n' (x / 256)
  end.

Definition little_endian_to_int (bs : bytes) : Z :=
  fold_right (fun b acc => b + 256 * acc) 0 bs.

(** ** Keccak-256 ([eth_utils.keccak]) *)

Module Keccak.

Definition mask64 : Z := 2 ^ 64 - 1.

Definition rol64 (x : Z) (n : Z) : Z :=
  Z.land (Z.lor (Z.shiftl x n) (Z.shiftr x (64 - n))) mask64.

Definition lane (A : list Z) (x y : nat) : Z :=
  nth (x mod 5 + 5 * (y mod 5))%nat A 0.

Definition RC : list Z :=
  [ 0x0000000000000001; 0x0000000000008082; 0x800000000000808A;
    0x8000000080008000; 0x000000000000808B; 0x0000000080000001;
    0x8000000080008081; 0x8000000000008009; 0x000000000000008A;
    0x0000000000000088; 0x0000000080008009; 0x000000008000000A;
    0x000000008000808B; 0x800000000000008B; 0x8000000000008089;
    0x8000000000008003; 0x8000000000008002; 0x8000000000000080;
    0x000000000000800A; 0x800000008000000A; 0x8000000080008081;
    0x8000000000008080; 0x0000000080000001; 0x8000000080008008 ].

(** Rotation offsets, indexed by [x + 5 * y]. *)
Definition rotc : list Z :=
  [  0;  1; 62; 28; 27;
    36; 44;  6; 55; 20;
     3; 10; 43; 25; 39;
    41; 45; 15; 21;  8;
    18;  2; 61; 56; 14 ].

Definition idx25 : list nat := seq 0 25.

Definition theta (A : list Z) : list Z :=
  let C := map (fun x => Z.lxor (lane A x 0) (Z.lxor (lane A x 1)
             (Z.lxor (lane A x 2) (Z.lxor (lane A x 3) (lane A x 4)))))
             (seq 0 5) in
  let D := map (fun x => Z.lxor (nth ((x + 4) mod 5)%nat C 0)
                                (rol64 (nth ((x + 1) mod 5)%nat C 0) 1))
             (seq 0 5) in
  map (fun i => Z.lxor (nth i A 0) (nth (i mod 5)%nat D 0)) idx25.

(** [B[y, 2x+3y] = rol(A[x, y], r[x, y])]; read backwards, the lane at
    [(X, Y)] comes from [x = (X + 3Y) mod 5], [y = X]. *)
Definition rho_pi (A : list Z) : list Z :=
  map (fun i =>
         let X := (i mod 5)%nat in
         let Y := (i / 5)%nat in
         let x := ((X + 3 * Y) mod 5)%nat in
         let y := X in
         rol64 (lane A x y) (nth (x + 5 * y)%nat rotc 0)) idx25.

Definition chi (B : list Z) : list Z :=
  map (fun i =>
         let x := (i mod 5)%nat in
         let y := (i / 5)%nat in
         Z.lxor (lane B x y)
                (Z.land (Z.lxor (lane B (x + 1) y) mask64) (lane B (x + 2) y)))
      idx25.

Definition iota (rc : Z) (A : list Z) : list Z :=
  match A with
  | [] => []
  | a :: A' => Z.lxor a rc :: A'
  end.

Definition round (A : list Z) (rc : Z) : list Z :=
  iota rc (chi (rho_pi (theta A))).

Definition keccak_f (A : list Z) : list Z := fold_left round RC A.

Definition rate : nat := 136.

(** Multi-rate padding with the Keccak domain byte [0x01]. *)
Definition pad (msg : bytes) : bytes :=
  let q := (rate - length msg mod rate)%nat in
  if (q =? 1)%nat then msg ++ [0x81]
  else msg ++ [0x01] ++ repeat 0 (q - 2) ++ [0x80].

Fixpoint chunks (fuel : nat) (n : nat) (bs : bytes) : list bytes :=
  match fuel with
  | O => []
  | S fuel' =>
      match bs with
      | [] => []
      | _ => firstn n bs :: chunks fuel' n (skipn n bs)
      end
  end.

Definition lanes_of_block (blk : bytes) : list Z :=
  map little_endian_to_int (chunks 25 8 (blk ++ repeat 0 (200 - length blk))).

Definition absorb (A : list Z) (blk : bytes) : list Z :=
  keccak_f (map (fun p => Z.lxor (fst p) (snd p))
                (combine A (lanes_of_block blk))).

Definition squeeze (A : list Z) : bytes :=
  firstn 32 (concat (map (le_bytes 8) A)).

Definition keccak256 (msg : bytes) : bytes :=
  let p := pad msg in
  squeeze (fold_left absorb (chunks (length p) rate p) (repeat 0 25)).

End Keccak.

Definition keccak (msg : bytes) : bytes := Keccak.keccak256 msg.

(** A 64-bit lane of the sponge state. *)
Definition is_lane (x : Z) : Prop := 0 <= x < 2 ^ 64.

(** ** secp256k1 and recoverable ECDSA

    The arithmetic follows the reference (pure Python) backend of the
    signing library used by [eth_account]: Jacobian coordinates, low-[s]
    normalisation and a recovery bit folded into [v]. *)

Module Secp256k1.

Definition P : Z := 2 ^ 256 - 2 ^ 32 - 977.
Definition N : Z :=
  0xFFFFFFFFFFFFFFFFFFFFFFFFFFFFFFFEBAAEDCE6AF48A03BBFD25E8CD0364141.
Definition A : Z := 0.
Definition B : Z := 7.
Definition Gx : Z :=
  0x79BE667EF9DCBBAC55A06295CE870B07029BFCDB2DCE28D959F2815B16F81798.
Definition Gy : Z :=
  0x483ADA7726A3C4655DA4FBFC0E1108A8FD17B448A68554199C47D08FFB10D4B8.

Definition point : Type := Z * Z.
Definition jpoint : Type := Z * Z * Z.

Definition G : point := (Gx, Gy).

(** Extended Euclid, [while low > 1]. *)
Fixpoint inv_loop (fuel : nat) (lm hm low high : Z) : Z :=
  match fuel with
  | O => lm
  | S fuel' =>
      if 1 <? low then
        let r := high / low in
        inv_loop fuel' (hm - lm * r) lm (high - low * r) low
      else lm
  end.

Definition inv (a n : Z) : Z :=
  if a =? 0 then 0 else inv_loop 1024 1 0 (a mod n) n mod n.

Definition to_jacobian (p : point) : jpoint := (fst p, snd p, 1).

Definition jacobian_double (p : jpoint) : jpoint :=
  let '(px, py, pz) := p in
  if py =? 0 then (0, 0, 0)
  else
    let ysq := (py ^ 2) mod P in
    let S := (4 * px * ysq) mod P in
    let M := (3 * px ^ 2 + A * pz ^ 4) mod P in
    let nx := (M ^ 2 - 2 * S) mod P in
    let ny := (M * (S - nx) - 8 * ysq ^ 2) mod P in
    let nz := (2 * py * pz) mod P in
    (nx, ny, nz).

Definition jacobian_add (p q : jpoint) : jpoint :=
  let '(px, py, pz) := p in
  let '(qx, qy, qz) := q in
  if py =? 0 then q
  else if qy =? 0 then p
  else
    let U1 := (px * qz ^ 2) mod P in
    let U2 := (qx * pz ^ 2) mod P in
    let S1 := (py * qz ^ 3) mod P in
    let S2 := (qy * pz ^ 3) mod P in
    if U1 =? U2 then
      if negb (S1 =? S2) then (0, 0, 1) else jacobian_double p
    else
      let H := U2 - U1 in
      let R := S2 - S1 in
      let H2 := (H * H) mod P in
      let H3 := (H * H2) mod P in
      let U1H2 := (U1 * H2) mod P in
      let nx := (R ^ 2 - H3 - 2 * U1H2) mod P in
      let ny := (R * (U1H2 - nx) - S1 * H3) mod P in
      let nz := (H * pz * qz) mod P in
      (nx, ny, nz).

Definition from_jacobian (p : jpoint) : point :=
  let '(px, py, pz) := p in
  let z := inv pz P in
  ((px * z ^ 2) mod P, (py * z ^ 3) mod P).

Fixpoint jacobian_multiply_pos (a : jpoint) (n : positive) : jpoint :=
  match n with
  | xH => a
  | xO n' => jacobian_double (jacobian_multiply_pos a n')
  | xI n' => jacobian_add (jacobian_double (jacobian_multiply_pos a n')) a
  end.

Definition jacobian_multiply (a : jpoint) (n : Z) : jpoint :=
  if (snd (fst a) =? 0) || (n =? 0) then (0, 0, 1)
  else
    match (if (n <? 0) || (N <=? n) then n mod N else n) with
    | Zpos m => jacobian_multiply_pos a m
    | _ => (0, 0, 1)
    end.

Definition fast_multiply (a : point) (n : Z) : point :=
  from_jacobian (jacobian_multiply (to_jacobian a) n).

(** Modular exponentiation, Python's three-argument [pow]. *)
Fixpoint pow_mod_pos (b : Z) (e : positive) (m : Z) : Z :=
  match e with
  | xH => b mod m
  | xO e' => let h := pow_mod_pos b e' m in (h * h) mod m
  | xI e' => let h := pow_mod_pos b e' m in (h * h * b) mod m
  end.

Definition pow_mod (b e m : Z) : Z :=
  match e with
  | Zpos e' => pow_mod_pos b e' m
  | _ => 1 mod m
  end.

Definition encode_raw_public_key (q : point) : bytes :=
  be_bytes 32 (fst q) ++ be_bytes 32 (snd q).

Definition private_key_to_public_key (d : Z) : bytes :=
  encode_raw_public_key (fast_multiply G d).

(** [ecdsa_raw_sign] with the nonce [k] made explicit; the library
    derives it deterministically from the key and the digest. *)
Definition ecdsa_raw_sign (z d k : Z) : Z * Z * Z :=
  let '(r, y) := fast_multiply G k in
  let s_raw := (inv k N * (z + r * d)) mod N in
  let v := 27 + Z.lxor (y mod 2) (if s_raw * 2 <? N then 0 else 1) in
  let s := if s_raw * 2 <? N then s_raw else N - s_raw in
  (v - 27, r, s).

(** Public-key recovery; [None] is the library's [BadSignature]. *)
Definition ecdsa_raw_recover (z v r s : Z) : option bytes :=
  let v := v + 27 in
  if negb ((27 <=? v) && (v <=? 34)) then None
  else
    let x := r in
    let xcubedaxb := (x * x * x + A * x + B) mod P in
    let beta := pow_mod xcubedaxb ((P + 1) / 4) P in
    let y := if negb (Z.lxor (v mod 2) (beta mod 2) =? 0)
             then beta else P - beta in
    if negb ((xcubedaxb - y * y) mod P =? 0)
       || (r mod N =? 0) || (s mod N =? 0)
    then None
    else
      let Gz := jacobian_multiply (Gx, Gy, 1) ((N - z) mod N) in
      let XY := jacobian_multiply (x, y, 1) s in
      let Qr := jacobian_add Gz XY in
      let Q := jacobian_multiply Qr (inv r N) in
      Some (encode_raw_public_key (from_jacobian Q)).

End Secp256k1.

(** The 20-byte account address of a public key, as an integer. *)
Definition public_key_to_address (pub : bytes) : Z :=
  big_endian_to_int (skipn 12 (keccak pub)).

Definition private_key_to_address (d : Z) : Z :=
  public_key_to_address (Secp256k1.private_key_to_public_key d).

(** ** Machine-word mirror of the curve arithmetic

    The same functions over [bigZ]; they compute quickly and agree with
    the definitions over [Z], which lets the protocol be run on the
    scripts' own keys and addresses. *)

Module Fast.

Abbreviation bz := BigZ.of_Z.

Definition jpoint : Type := bigZ * bigZ * bigZ.

Definition J (p : jpoint) : Secp256k1.jpoint :=
  let '(x, y, z) := p in (BigZ.to_Z x, BigZ.to_Z y, BigZ.to_Z z).

Definition Jof (p : Secp256k1.jpoint) : jpoint :=
  let '(x, y, z) := p in (bz x, bz y, bz z).

Local Open Scope bigZ_scope.

Definition P : bigZ := bz Secp256k1.P.
Definition N : bigZ := bz Secp256k1.N.

Fixpoint inv_loop (fuel : nat) (lm hm low high : bigZ) : bigZ :=
  match fuel with
  | O => lm
  | S fuel' =>
      if bz 1 <? low then
        let r := high / low in
        inv_loop fuel' (hm - lm * r) lm (high - low * r) low
      else lm
  end.

Definition inv (a n : bigZ) : bigZ :=
  if a =? bz 0 then bz 0 else inv_loop 1024 (bz 1) (bz 0) (a mod n) n mod n.

Definition jacobian_double (p : jpoint) : jpoint :=
  let '(px, py, pz) := p in
  if py =? bz 0 then (bz 0, bz 0, bz 0)
  else
    let ysq := (py ^ bz 2) mod P in
    let S := (bz 4 * px * ysq) mod P in
    let M := (bz 3 * px ^ bz 2 + bz Secp256k1.A * pz ^ bz 4) mod P in
    let nx := (M ^ bz 2 - bz 2 * S) mod P in
    let ny := (M * (S - nx) - bz 8 * ysq ^ bz 2) mod P in
    let nz := (bz 2 * py * pz) mod P in
    (nx, ny, nz).

Definition jacobian_add (p q : jpoint) : jpoint :=
  let '(px, py, pz) := p in
  let '(qx, qy, qz) := q in
  if py =? bz 0 then q
  else if qy =? bz 0 then p
  else
    let U1 := (px * qz ^ bz 2) mod P in
    let U2 := (qx * pz ^ bz 2) mod P in
    let S1 := (py * qz ^ bz 3) mod P in
    let S2 := (qy * pz ^ bz 3) mod P in
    if U1 =? U2 then
      if negb (S1 =? S2) then (bz 0, bz 0, bz 1) else jacobian_double p
    else
      let H := U2 - U1 in
      let R := S2 - S1 in
      let H2 := (H * H) mod P in
      let H3 := (H * H2) mod P in
      let U1H2 := (U1 * H2) mod P in
      let nx := (R ^ bz 2 - H3 - bz 2 * U1H2) mod P in
      let ny := (R * (U1H2 - nx) - S1 * H3) mod P in
      let nz := (H * pz * qz) mod P in
      (nx, ny, nz).

Definition from_jacobian (p : jpoint) : bigZ * bigZ :=
  let '(px, py, pz) := p in
  let z := inv pz P in
  ((px * z ^ bz 2) mod P, (py * z ^ bz 3) mod P).

Fixpoint jacobian_multiply_pos (a : jpoint) (n : positive) : jpoint :=
  match n with
  | xH => a
  | xO n' => jacobian_double (jacobian_multiply_pos a n')
  | xI n' => jacobian_add (jacobian_double (jacobian_multiply_pos a n')) a
  end.

Fixpoint pow_mod_pos (b : bigZ) (e : positive) (m : bigZ) : bigZ :=
  match e with
  | xH => b mod m
  | xO e' => let h := pow_mod_pos b e' m in (h * h) mod m
  | xI e' => let h := pow_mod_pos b e' m in (h * h * b) mod m
  end.

Local Close Scope bigZ_scope.
Local Open Scope Z_scope.

(** The entry points, with [Z] arguments and results. *)

Definition inv' (a n : Z) : Z := BigZ.to_Z (inv (bz a) (bz n)).

Definition jacobian_add' (p q : Secp256k1.jpoint) : Secp256k1.jpoint :=
  J (jacobian_add (Jof p) (Jof q)).

Definition from_jacobian' (p : Secp256k1.jpoint) : Secp256k1.point :=
  let '(x, y) := from_jacobian (Jof p) in (BigZ.to_Z x, BigZ.to_Z y).

Definition jacobian_multiply (a : Secp256k1.jpoint) (n : Z)
  : Secp256k1.jpoint :=
  if (snd (fst a) =? 0) || (n =? 0) then (0, 0, 1)
  else
    match (if (n <? 0) || (Secp256k1.N <=? n)
           then n mod Secp256k1.N else n) with
    | Zpos m => J (jacobian_multiply_pos (Jof a) m)
    | _ => (0, 0, 1)
    end.

Definition fast_multiply (a : Secp256k1.point) (n : Z) : Secp256k1.point :=
  from_jacobian' (jacobian_multiply (Secp256k1.to_jacobian a) n).

Definition pow_mod (b e m : Z) : Z :=
  match e with
  | Zpos e' => BigZ.to_Z (pow_mod_pos (bz b) e' (bz m))
  | _ => 1 mod m
  end.

Definition private_key_to_public_key (d : Z) : bytes :=
  Secp256k1.encode_raw_public_key (fast_multiply Secp256k1.G d).

Definition ecdsa_raw_sign (z d k : Z) : Z * Z * Z :=
  let '(r, y) := fast_multiply Secp256k1.G k in
  let s_raw := (inv' k Secp256k1.N * (z + r * d)) mod Secp256k1.N in
  let v := 27 + Z.lxor (y mod 2)
                       (if s_raw * 2 <? Secp256k1.N then 0 else 1) in
  let s := if s_raw * 2 <? Secp256k1.N then s_raw
           else Secp256k1.N - s_raw in
  (v - 27, r, s).

Definition ecdsa_raw_recover (z v r s : Z) : option bytes :=
  let v := v + 27 in
  if negb ((27 <=? v) && (v <=? 34)) then None
  else
    let x := r in
    let xcubedaxb :=
      (x * x * x + Secp256k1.A * x + Secp256k1.B) mod Secp256k1.P in
    let beta := pow_mod xcubedaxb ((Secp256k1.P + 1) / 4) Secp256k1.P in
    let y := if negb (Z.lxor (v mod 2) (beta mod 2) =? 0)
             then beta else Secp256k1.P - beta in
    if negb ((xcubedaxb - y * y) mod Secp256k1.P =? 0)
       || (r mod Secp256k1.N =? 0) || (s mod Secp256k1.N =? 0)
    then None
    else
      let Gz := jacobian_multiply (Secp256k1.Gx, Secp256k1.Gy, 1)
                  ((Secp256k1.N - z) mod Secp256k1.N) in
      let XY := jacobian_multiply (x, y, 1) s in
      let Qr := jacobian_add' Gz XY in
      let Q := jacobian_multiply Qr (inv' r Secp256k1.N) in
      Some (Secp256k1.encode_raw_public_key (from_jacobian' Q)).

End Fast.

(** ** Python strings, dictionaries and [json.dumps]

    A [str] is modelled by a [string] whose characters are the code
    points below 256; a dictionary by its items in insertion order. *)

Definition ord (c : ascii) : Z := Z.of_N (N_of_ascii c).

Definition chr (n : Z) : ascii := ascii_of_N (Z.to_N n).

(** [str.encode()] (UTF-8). *)
Definition encode_char (c : ascii) : bytes :=
  let n := ord c in
  if n <? 128 then [n] else [192 + n / 64; 128 + n mod 64].

Fixpoint encode (s : string) : bytes :=
  match s with
  | EmptyString => []
  | String c s' => encode_char c ++ encode s'
  end.

Definition dquote : ascii := chr 34.

Definition hex_digit (n : Z) : ascii :=
  if n <? 10 then chr (48 + n) else chr (87 + n).

(** ['\\u{0:04x}'.format(n)] for [n < 256]. *)
Definition escape_u (n : Z) : string :=
  String "\" (String "u" (String "0" (String "0"
    (String (hex_digit (n / 16)) (String (hex_digit (n mod 16)) ""))))).

(** One character of [py_encode_basestring_ascii]. *)
Definition escape_char (c : ascii) : string :=
  let n := ord c in
  if n =? 34 then String "\" (String dquote "")
  else if n =? 92 then String "\" (String "\" "")
  else if n =? 8 then String "\" (String "b" "")
  else if n =? 12 then String "\" (String "f" "")
  else if n =? 10 then String "\" (String "n" "")
  else if n =? 13 then String "\" (String "r" "")
  else if n =? 9 then String "\" (String "t" "")
  else if (n <? 32) || (126 <? n) then escape_u n
  else String c "".

Fixpoint escape_body (s : string) : string :=
  match s with
  | EmptyString => EmptyString
  | String c s' => (escape_char c ++ escape_body s')%string
  end.

Definition encode_basestring_ascii (s : string) : string :=
  (String dquote (escape_body s) ++ String dquote "")%string.

Abbreviation dict := (list (string * string)).

(** [d[k]] lookup, [None] when the key is missing. *)
Fixpoint dict_get (d : dict) (k : string) : option string :=
  match d with
  | [] => None
  | (k', v) :: d' => if String.eqb k' k then Some v else dict_get d' k
  end.

(** [d[k] = v]: an existing key keeps its position, a new key goes last. *)
Fixpoint dict_set (d : dict) (k v : string) : dict :=
  match d with
  | [] => [(k, v)]
  | (k', v') :: d' =>
      if String.eqb k' k then (k', v) :: d' else (k', v') :: dict_set d' k v
  end.

(** A dictionary display [{k1: v1, k2: v2, ...}]. *)
Definition dict_literal (items : list (string * string)) : dict :=
  fold_left (fun d kv => dict_set d (fst kv) (snd kv)) items [].

Definition dumps_item (kv : string * string) : string :=
  (encode_basestring_ascii (fst kv) ++ ": "
     ++ encode_basestring_ascii (snd kv))%string.

Fixpoint join (sep : string) (l : list string) : string :=
  match l with
  | [] => EmptyString
  | [x] => x
  | x :: l' => (x ++ sep ++ join sep l')%string
  end.

(** [json.dumps(d)] with the default separators and [ensure_ascii]. *)
Definition json_dumps (d : dict) : string :=
  ("{" ++ join ", " (map dumps_item d) ++ "}")%string.

(** The keys of a dictionary, in insertion order. *)
Definition keys (d : dict) : list string := map fst d.


(** A byte string of printable ASCII characters. *)
Definition printable (bs : bytes) : Prop :=
  Forall (fun b => 32 <= b <= 126) bs.

(** Value of a lower-case hexadecimal digit. *)
Definition unhex (c : ascii) : Z :=
  let n := ord c in if n <? 58 then n - 48 else n - 87.

(** Reads back the first character that [escape_char] wrote at the head
    of a string, and the rest of the string. *)
Definition unescape_head (s : string) : option (ascii * string) :=
  match s with
  | EmptyString => None
  | String c r =>
      if negb (ord c =? 92) then Some (c, r)
      else
        match r with
        | EmptyString => None
        | String e r' =>
            let n := ord e in
            if n =? 117 then
              match r' with
              | String _ (String _ (String h (String l r''))) =>
                  Some (chr (16 * unhex h + unhex l), r'')
              | _ => None
              end
            else if n =? 98 then Some (chr 8, r')
            else if n =? 102 then Some (chr 12, r')
            else if n =? 110 then Some (chr 10, r')
            else if n =? 114 then Some (chr 13, r')
            else if n =? 116 then Some (chr 9, r')
            else Some (e, r')
        end
  end.

(** ** Packed encoding and message prefixing *)

Inductive abi_value : Type :=
| Address (a : Z)
| Bytes32 (b : bytes).

(** [hex_encode_abi_type]: an address is padded to 20 bytes, a byte
    string is taken as it is. *)
Definition hex_encode_abi_type (v : abi_value) : bytes :=
  match v with
  | Address a => be_bytes 20 a
  | Bytes32 b => b
  end.

Definition encode_packed (values : list abi_value) : bytes :=
  concat (map hex_encode_abi_type values).

(** [Web3.solidity_keccak(types, values)]. *)
Definition solidity_keccak (values : list abi_value) : bytes :=
  keccak (encode_packed values).

Fixpoint dec_digits (fuel : nat) (n : Z) (acc : bytes) : bytes :=
  match fuel with
  | O => acc
  | S fuel' =>
      let acc' := (48 + n mod 10) :: acc in
      if n / 10 =? 0 then acc' else dec_digits fuel' (n / 10) acc'
  end.

(** [str(n).encode()] for a length [n]. *)
Definition str_of_len (n : nat) : bytes :=
  dec_digits (S n) (Z.of_nat n) [].

(** [int(bs)] for a string of decimal digits. *)
Definition int_of_digits (bs : bytes) : Z :=
  fold_left (fun acc b => acc * 10 + (b - 48)) bs 0.

Record SignableMessage : Type := mkSignable {
  version : bytes;
  header : bytes;
  body : bytes
}.

(** [encode_defunct(primitive)]. *)
Definition encode_defunct (primitive : bytes) : SignableMessage :=
  {| version := encode "E";
     header := encode "thereum Signed Message:" ++ [10]
                 ++ str_of_len (length primitive);
     body := primitive |}.

(** [_hash_eip191_message]. *)
Definition hash_eip191_message (m : SignableMessage) : bytes :=
  keccak ([25] ++ version m ++ header m ++ body m).

Record SignedMessage : Type := mkSigned {
  messageHash : bytes;
  sig_r : Z;
  sig_s : Z;
  sig_v : Z
}.

(** [Account.sign_message]; [k] is the signing nonce. *)
Definition sign_message (m : SignableMessage) (key k : Z) : SignedMessage :=
  let message_hash := hash_eip191_message m in
  let '(v_raw, r, s) :=
    Secp256k1.ecdsa_raw_sign (big_endian_to_int message_hash) key k in
  {| messageHash := message_hash; sig_r := r; sig_s := s;
     sig_v := v_raw + 27 |}.

(** [Web3.to_bytes(n)] for a non-negative integer: the shortest
    big-endian encoding, one zero byte for [0]. *)
Definition byte_length (n : Z) : nat := Z.to_nat (Z.log2 n / 8 + 1).

Definition to_bytes (n : Z) : bytes := be_bytes (byte_length n) n.

(** [bytes.rjust(width, fill)]. *)
Definition rjust (width : nat) (fill : Z) (bs : bytes) : bytes :=
  if (width <=? length bs)%nat then bs
  else repeat fill (width - length bs) ++ bs.

(** ** Checksummed addresses

    [eth_utils]' address helpers: the scripts write their addresses in
    checksummed form and the client library refuses any other. *)

(** [binascii.hexlify]: two lower-case hexadecimal digits for each byte. *)
Fixpoint hexlify (bs : bytes) : string :=
  match bs with
  | [] => EmptyString
  | b :: bs' =>
      String (hex_digit (b / 16)) (String (hex_digit (b mod 16)) (hexlify bs'))
  end.

(** [binascii.unhexlify] on lower-case digits. *)
Fixpoint unhexlify (s : string) : bytes :=
  match s with
  | String h (String l r) => (16 * unhex h + unhex l) :: unhexlify r
  | _ => []
  end.

(** The hexadecimal digits of a byte string, as numbers. *)
Definition nibbles (bs : bytes) : list Z :=
  flat_map (fun b => [b / 16; b mod 16]) bs.

(** [str.lower()] on one character. *)
Definition lower (c : ascii) : ascii :=
  let n := ord c in
  if ((65 <=? n) && (n <=? 90))
     || ((192 <=? n) && (n <=? 222) && negb (n =? 215))
  then chr (n + 32) else c.

(** [str.upper()] on one ASCII character. *)
Definition upper (c : ascii) : ascii :=
  let n := ord c in
  if (97 <=? n) && (n <=? 122) then chr (n - 32) else c.

Fixpoint string_map (f : ascii -> ascii) (s : string) : string :=
  match s with
  | EmptyString => EmptyString
  | String c s' => String (f c) (string_map f s')
  end.

Fixpoint string_forallb (f : ascii -> bool) (s : string) : bool :=
  match s with
  | EmptyString => true
  | String c s' => f c && string_forallb f s'
  end.

(** [[0-9a-f]]. *)
Definition is_lower_hex_char (c : ascii) : bool :=
  let n := ord c in
  ((48 <=? n) && (n <=? 57)) || ((97 <=? n) && (n <=? 102)).

(** [[0-9a-fA-F]]. *)
Definition is_hex_char (c : ascii) : bool :=
  is_lower_hex_char c || ((65 <=? ord c) && (ord c <=? 70)).

(** Drops a leading [0x] or [0X]. *)
Definition remove_0x_prefix (s : string) : string :=
  match s with
  | String a (String b r) =>
      if (ord a =? 48) && ((ord b =? 120) || (ord b =? 88)) then r else s
  | _ => s
  end.

(** [is_hex_address]: forty hexadecimal digits, with or without prefix. *)
Definition is_hex_address (s : string) : bool :=
  (String.length (remove_0x_prefix s) =? 40)%nat
  && string_forallb is_hex_char (remove_0x_prefix s).

(** The letters of the normalized address [norm], each in upper case
    when the digit of [hash] at its place is above 7. *)
Fixpoint checksum_case (norm : string) (hash : list Z) : string :=
  match norm, hash with
  | String c norm', h :: hash' =>
      String (if 7 <? h then upper c else c) (checksum_case norm' hash')
  | _, _ => EmptyString
  end.

(** [to_checksum_address] once the address is normalized: [norm] is the
    address in lower-case digits, without prefix. *)
Definition checksum_of_normalized (norm : string) : string :=
  String "0" (String "x"
    (checksum_case norm (nibbles (keccak (encode norm))))).

(** [to_checksum_address] of a 20-byte address ([acct.address]). *)
Definition to_checksum_address (a : Z) : string :=
  checksum_of_normalized (hexlify (be_bytes 20 a)).

(** [to_normalized_address] of an address written as a string: prefixed
    lower-case digits; [None] is the library's [ValueError]. *)
Definition to_normalized_address (s : string) : option string :=
  if is_hex_address s
  then Some (String "0" (String "x"
               (string_map lower (remove_0x_prefix s))))
  else None.

(** [to_checksum_address] of an address written as a string. *)
Definition to_checksum_address_str (s : string) : option string :=
  match to_normalized_address s with
  | Some norm => Some (checksum_of_normalized (remove_0x_prefix norm))
  | None => None
  end.

(** [is_checksum_address]. *)
Definition is_checksum_address (s : string) : bool :=
  is_hex_address s
  && match to_checksum_address_str s with
     | Some c => String.eqb s c
     | None => false
     end.

(** [to_canonical_address]: the 20 bytes of an address string. *)
Definition to_canonical_address (s : string) : option bytes :=
  match to_normalized_address s with
  | Some norm => Some (unhexlify (remove_0x_prefix norm))
  | None => None
  end.

(** ** Contract calls *)

Inductive Call : Type :=
| IssueCredential (user credentialType credentialHash v r s : Z)
| SetAuthority (credentialType authority : Z).

Record Tx : Type := mkTx {
  tx_from : Z;
  tx_call : Call
}.

(** Argument encoding of a [bytes32] parameter: exactly 32 bytes. *)
Definition abi_bytes32 (bs : bytes) : option Z :=
  if (length bs =? 32)%nat then Some (big_endian_to_int bs) else None.

Definition abi_uint8 (v : Z) : option Z :=
  if (0 <=? v) && (v <? 256) then Some v else None.

Definition call_issueCredential
    (user : Z) (credentialType credentialHash : bytes) (v : Z)
    (r s : bytes) : option Call :=
  match abi_bytes32 credentialType, abi_bytes32 credentialHash,
        abi_uint8 v, abi_bytes32 r, abi_bytes32 s with
  | Some t, Some h, Some v', Some r', Some s' =>
      Some (IssueCredential user t h v' r' s')
  | _, _, _, _, _ => None
  end.

Definition call_setAuthority (credentialType : bytes) (authority : Z)
  : option Call :=
  match abi_bytes32 credentialType with
  | Some t => Some (SetAuthority t authority)
  | None => None
  end.

(** ** govt.py *)

Module Govt.

Section Script.
Variable PRIVATE_KEY : Z.
Variable label : string.
Variable authority : Z.

Definition credential_type : bytes := keccak (encode label).

Definition tx : option Tx :=
  match call_setAuthority credential_type authority with
  | Some c => Some {| tx_from := private_key_to_address PRIVATE_KEY;
                      tx_call := c |}
  | None => None
  end.
End Script.

Definition PRIVATE_KEY : Z :=
  0x703d745d77f622cabd37865187f5849ca97d4233e886db419708697643cce036.
Definition CONTRACT : Z := 0x006A536bcc5F927AF5a58c7bBef05eab36d4C87F.
Definition label : string := "PERSONAL".
Definition authority : Z := 0x0067CFc221eD96c6CaC29963413cd7B6449C8fa0.

End Govt.

(** ** issuer.py *)

Module Issuer.

Section Script.
Variable PRIVATE_KEY : Z.
Variable CONTRACT : Z.
Variable user : Z.
Variable label : string.
Variable data : dict.
Variable k : Z.

Definition credential_type_hash : bytes := keccak (encode label).

Definition credential_hash : bytes := keccak (encode (json_dumps data)).

Definition message_hash : bytes :=
  solidity_keccak [Address user; Bytes32 credential_type_hash;
                   Bytes32 credential_hash; Address CONTRACT].

Definition message : SignableMessage := encode_defunct message_hash.

Definition signed : SignedMessage := sign_message message PRIVATE_KEY k.

Definition tx : option Tx :=
  match call_issueCredential user credential_type_hash credential_hash
          (sig_v signed)
          (rjust 32 0 (to_bytes (sig_r signed)))
          (rjust 32 0 (to_bytes (sig_s signed))) with
  | Some c => Some {| tx_from := private_key_to_address PRIVATE_KEY;
                      tx_call := c |}
  | None => None
  end.
End Script.

Definition PRIVATE_KEY : Z :=
  0x13d199f22241e23a74aee59b718ac5942151b3b0d00697204f564fd757b030a8.
Definition CONTRACT : Z := 0x006A536bcc5F927AF5a58c7bBef05eab36d4C87F.
Definition user : Z := 0x0076FeE06D650B33988addDee6A4a2f9A474112e.
Definition label : string := "PERSONAL".

Definition data : dict :=
  dict_literal
    [ ("name", "Anmol Sarkar");
      ("dob", "2000-01-01");
      ("birthplace", "pune");
      ("father", "Joydeep Sarkar");
      ("mother", "Sampa Sarkar");
      ("gender", "male");
      ("citizenship", "indian");
      ("main_address", "pune");
      ("married", "false");
      ("spouse", String.EmptyString) ]%string.

End Issuer.

(** ** The verifier contract *)

Module Verifier.

(** Modelled from the spec: the contract's storage (the source of the
    deployed contract is missing; the scripts only carry its interface):
    the fixed administrator, the verifier's own address, the Authority
    Registry and the Credential Store. *)
Record State : Type := mkState {
  government : Z;
  this : Z;
  authorities : gmap Z Z;
  credentials : gmap (Z * Z) Z
}.

(** Modelled from the spec: the error taxonomy of the missing contract. *)
Inductive Error : Type :=
| Unauthorized
| MalformedSignature
| AdminOnly.

Inductive Outcome : Type :=
| Ok
| Rejected (e : Error).

(** Modelled from the spec: the missing constructor; the administrator
    is set once, both maps start empty. *)
Definition init (government this : Z) : State :=
  {| government := government; this := this;
     authorities := ∅; credentials := ∅ |}.

(** Modelled from the spec: the missing [getAuthority] / [authorities]
    query; the zero address when no delegation exists. *)
Definition getAuthority (st : State) (credentialType : Z) : Z :=
  default 0 (authorities st !! credentialType).

(** Modelled from the spec: the missing [getCredentialHash] /
    [credentials] query; the zero hash when absent. *)
Definition getCredentialHash (st : State) (user credentialType : Z) : Z :=
  default 0 (credentials st !! (user, credentialType)).

(** Modelled from the spec: the message of the missing Hash Domain
    Builder, [pad20(subject) || pad32(type) || pad32(hash) ||
    pad20(verifier)]. *)
Definition domainMessage (subject credentialType credentialHash verifier : Z)
  : bytes :=
  be_bytes 20 subject ++ be_bytes 32 credentialType
    ++ be_bytes 32 credentialHash ++ be_bytes 20 verifier.

(** Modelled from the spec: the missing Hash Domain Builder, keccak256
    of the packed message. *)
Definition domainHash (subject credentialType credentialHash verifier : Z)
  : bytes :=
  keccak (domainMessage subject credentialType credentialHash verifier).

(** Modelled from the spec: the missing personal-message prefixing of a
    32-byte digest. *)
Definition prefixed (digest : bytes) : bytes :=
  keccak ([25] ++ encode "Ethereum Signed Message:" ++ [10]
            ++ encode "32" ++ digest).

(** Modelled from the spec: the missing standard ECDSA recovery; [None]
    when recovery itself fails. *)
Definition ecrecover (digest : bytes) (v r s : Z) : option Z :=
  if ((v =? 27) || (v =? 28))
     && (0 <? r) && (r <? Secp256k1.N) && (0 <? s) && (s <? Secp256k1.N)
  then option_map public_key_to_address
         (Secp256k1.ecdsa_raw_recover (big_endian_to_int digest) (v - 27) r s)
  else None.

(** Modelled from the spec: the missing [issueCredential] transition,
    steps 1 to 5 of the verification state machine. *)
Definition issueCredential (st : State)
    (subject credentialType credentialHash v r s : Z) : State * Outcome :=
  let digest :=
    prefixed (domainHash subject credentialType credentialHash (this st)) in
  match ecrecover digest v r s with
  | None => (st, Rejected MalformedSignature)
  | Some signer =>
      let authority := getAuthority st credentialType in
      if negb (signer =? authority) || (authority =? 0)
      then (st, Rejected Unauthorized)
      else ({| government := government st; this := this st;
               authorities := authorities st;
               credentials :=
                 <[(subject, credentialType) := credentialHash]>
                   (credentials st) |}, Ok)
  end.

(** Modelled from the spec: the missing [setAuthority] operation,
    callable only by the administrator. *)
Definition setAuthority (st : State) (sender credentialType authority : Z)
  : State * Outcome :=
  if sender =? government st
  then ({| government := government st; this := this st;
           authorities := <[credentialType := authority]> (authorities st);
           credentials := credentials st |}, Ok)
  else (st, Rejected AdminOnly).

(** One transaction against the contract. *)
Definition exec (st : State) (tx : Tx) : State * Outcome :=
  match tx_call tx with
  | IssueCredential user t h v r s => issueCredential st user t h v r s
  | SetAuthority t a => setAuthority st (tx_from tx) t a
  end.

(** The ledger orders the transactions; each runs on the state left by
    the one before. *)
Definition run (st : State) (txs : list Tx) : State :=
  fold_left (fun s tx => fst (exec s tx)) txs st.

(** [tx] is an accepted [issueCredential] for [(subject, credentialType)]. *)
Definition commits_to (st : State) (tx : Tx) (subject credentialType : Z)
  : bool :=
  match tx_call tx, snd (exec st tx) with
  | IssueCredential user t _ _ _ _, Ok =>
      (user =? subject) && (t =? credentialType)
  | _, _ => false
  end.

(** Whether some transaction of [txs], run in order from [st], is an
    accepted [issueCredential] for [(subject, credentialType)]. *)
Fixpoint any_commit (st : State) (txs : list Tx) (subject credentialType : Z)
  : bool :=
  match txs with
  | [] => false
  | tx :: txs' =>
      commits_to st tx subject credentialType
      || any_commit (fst (exec st tx)) txs' subject credentialType
  end.

(** The commit condition: the address recovered from the Authorization's
    signature is the registry's current, non-zero entry for the type. *)
Definition authorized (st : State) (subject credentialType credentialHash
                                     v r s : Z) : Prop :=
  ecrecover
    (prefixed (domainHash subject credentialType credentialHash (this st)))
    v r s = Some (getAuthority st credentialType)
  /\ getAuthority st credentialType <> 0.

End Verifier.

(** ** The deployment the two scripts address

    The administrator delegates PERSONAL to [Govt.authority], then the
    issuer submits its Authorization. The nonce is one the signing
    library may draw; the values below are what the scripts compute. *)

Module Scenario.

Definition government : Z := 0x006377377c9b03a79b9dba43ffea362db255c243.

Definition nonce : Z :=
  0x1f2e3d4c5b6a79881726354453627180aabbccddeeff00112233445566778899.

Definition PERSONAL : Z :=
  0x7faece8b9311019b52505d71273b275ab6511619a1f2008a51cce429a2bbda61.

Definition H : Z :=
  big_endian_to_int (Issuer.credential_hash Issuer.data).

Definition sig_r : Z :=
  0x7311aca368819bd535fe9699432662f1b07f6f4476ce590d013e1221905d225a.
Definition sig_s : Z :=
  0x272993eb9e3044beec9715825a5e0e1c35cd55456268a935650c9f35237a968c.


Definition deployed : Verifier.State :=
  Verifier.init government Issuer.CONTRACT.

Definition govt_tx : Tx :=
  {| tx_from := government;
     tx_call := SetAuthority PERSONAL Govt.authority |}.

Definition issuer_tx : Tx :=
  {| tx_from := Govt.authority;
     tx_call := IssueCredential Issuer.user PERSONAL H 27 sig_r sig_s |}.

Definition delegated : Verifier.State :=
  {| Verifier.government := government;
     Verifier.this := Issuer.CONTRACT;
     Verifier.authorities := {[ PERSONAL := Govt.authority ]};
     Verifier.credentials := ∅ |}.

Definition issued : Verifier.State :=
  {| Verifier.government := government;
     Verifier.this := Issuer.CONTRACT;
     Verifier.authorities := {[ PERSONAL := Govt.authority ]};
     Verifier.credentials := {[ (Issuer.user, PERSONAL) := H ]} |}.





End Scenario.

(** * Facts about the byte encodings *)

Lemma be_bytes_length n x : length (be_bytes n x) = n.
Proof.
  revert x; induction n as [|n IH]; intros x; cbn [be_bytes]; [reflexivity|].
  rewrite length_app, IH. cbn. lia.
Qed.

Lemma big_endian_fold acc bs :
  fold_left (fun a b => a * 256 + b) bs acc =
  acc * 256 ^ Z.of_nat (length bs) + big_endian_to_int bs.
Proof.
  unfold big_endian_to_int.
  revert acc; induction bs as [|b bs IH]; intros acc.
  - cbn. lia.
  - cbn [fold_left length]. rewrite IH, (IH (0 * 256 + b)).
    rewrite Nat2Z.inj_succ, Z.pow_succ_r by lia. ring.
Qed.

Lemma big_endian_to_int_app a b :
  big_endian_to_int (a ++ b) =
  big_endian_to_int a * 256 ^ Z.of_nat (length b) + big_endian_to_int b.
Proof.
  unfold big_endian_to_int at 1. rewrite fold_left_app.
  fold (big_endian_to_int a). apply big_endian_fold.
Qed.

Lemma big_endian_to_int_cons b bs :
  big_endian_to_int (b :: bs) =
  b * 256 ^ Z.of_nat (length bs) + big_endian_to_int bs.
Proof.
  change (b :: bs) with ([b] ++ bs). rewrite big_endian_to_int_app.
  cbn. reflexivity.
Qed.

Lemma big_endian_to_int_zeros n bs :
  big_endian_to_int (repeat 0 n ++ bs) = big_endian_to_int bs.
Proof.
  induction n as [|n IH]; [reflexivity|].
  cbn [repeat app]. rewrite big_endian_to_int_cons, IH. lia.
Qed.

Lemma be_bytes_value n x :
  big_endian_to_int (be_bytes n x) = x mod 256 ^ Z.of_nat n.
Proof.
  revert x; induction n as [|n IH]; intros x.
  - cbn. rewrite Z.mod_1_r. reflexivity.
  - cbn [be_bytes]. rewrite big_endian_to_int_app, IH.
    rewrite Nat2Z.inj_succ, Z.pow_succ_r by lia.
    cbn [length]. change (big_endian_to_int [x mod 256]) with (0 * 256 + x mod 256).
    change (256 ^ Z.of_nat 1) with 256.
    rewrite Z.rem_mul_r by lia. lia.
Qed.

Lemma be_bytes_wf n x : wf_bytes (be_bytes n x).
Proof.
  revert x; induction n as [|n IH]; intros x; cbn [be_bytes].
  - constructor.
  - apply Forall_app; split; [apply IH|].
    repeat constructor; unfold is_byte; apply Z.mod_pos_bound; lia.
Qed.

Lemma big_endian_to_int_bound bs :
  wf_bytes bs -> 0 <= big_endian_to_int bs < 256 ^ Z.of_nat (length bs).
Proof.
  induction bs as [|b bs IH] using rev_ind; intros Hwf.
  - cbn. lia.
  - apply Forall_app in Hwf as [Hbs Hb].
    apply Forall_inv in Hb. unfold is_byte in Hb.
    specialize (IH Hbs).
    rewrite big_endian_to_int_app, length_app. cbn [length].
    change (big_endian_to_int [b]) with (0 * 256 + b).
    rewrite Nat2Z.inj_add, Z.pow_add_r by lia.
    change (256 ^ Z.of_nat 1) with 256. nia.
Qed.

(** Decoding then re-encoding at the same width gives the bytes back. *)
Lemma be_bytes_of_int bs :
  wf_bytes bs -> be_bytes (length bs) (big_endian_to_int bs) = bs.
Proof.
  induction bs as [|b bs IH] using rev_ind; intros Hwf; [reflexivity|].
  apply Forall_app in Hwf as [Hbs Hb].
  apply Forall_inv in Hb. unfold is_byte in Hb.
  rewrite length_app, Nat.add_comm. cbn [length Nat.add be_bytes].
  rewrite big_endian_to_int_app. cbn [length].
  change (big_endian_to_int [b]) with (0 * 256 + b).
  change (256 ^ Z.of_nat 1) with 256.
  replace ((big_endian_to_int bs * 256 + (0 * 256 + b)) / 256)
    with (big_endian_to_int bs).
  2:{ symmetry. rewrite Z.add_comm, Z.div_add by lia.
      rewrite Z.div_small by lia. reflexivity. }
  replace ((big_endian_to_int bs * 256 + (0 * 256 + b)) mod 256) with b.
  2:{ symmetry. rewrite Z.add_comm, Z.mod_add by lia.
      apply Z.mod_small. lia. }
  rewrite IH by assumption. reflexivity.
Qed.

Lemma le_bytes_length n x : length (le_bytes n x) = n.
Proof.
  revert x; induction n as [|n IH]; intros x; cbn [le_bytes length];
    [reflexivity|]. rewrite IH. reflexivity.
Qed.

Lemma le_bytes_wf n x : wf_bytes (le_bytes n x).
Proof.
  revert x; induction n as [|n IH]; intros x; cbn [le_bytes].
  - constructor.
  - constructor; [apply Z.mod_pos_bound; lia | apply IH].
Qed.

(** * Facts about Keccak-256: the digest is 32 well-formed bytes *)

Module KeccakFacts.
Import Keccak.

Lemma iota_length rc A : length (iota rc A) = length A.
Proof. destruct A; reflexivity. Qed.

Lemma round_length A rc : length (round A rc) = 25%nat.
Proof.
  unfold round, chi. rewrite iota_length, length_map. reflexivity.
Qed.

Lemma rounds_length rcs : forall A,
  length A = 25%nat -> length (fold_left round rcs A) = 25%nat.
Proof.
  induction rcs as [|rc rcs IH]; intros A HA; cbn [fold_left];
    [assumption|]. apply IH, round_length.
Qed.

Lemma keccak_f_length A : length (keccak_f A) = 25%nat.
Proof.
  unfold keccak_f, RC. cbn [fold_left]. apply round_length.
Qed.

Lemma absorb_all_length blocks : forall A,
  length A = 25%nat -> length (fold_left absorb blocks A) = 25%nat.
Proof.
  induction blocks as [|blk blocks IH]; intros A HA; cbn [fold_left];
    [assumption|]. apply IH. unfold absorb. apply keccak_f_length.
Qed.

Lemma lanes_bytes_length A :
  length (concat (map (le_bytes 8) A)) = (8 * length A)%nat.
Proof.
  induction A as [|a A IH]; [reflexivity|].
  cbn [map concat]. rewrite length_app, le_bytes_length, IH. cbn [length]. lia.
Qed.

Lemma lanes_bytes_wf A : wf_bytes (concat (map (le_bytes 8) A)).
Proof.
  induction A as [|a A IH]; cbn [map concat]; [constructor|].
  apply Forall_app; split; [apply le_bytes_wf | apply IH].
Qed.

Lemma squeeze_length A : length A = 25%nat -> length (squeeze A) = 32%nat.
Proof.
  intros HA. unfold squeeze.
  rewrite length_firstn, lanes_bytes_length, HA. reflexivity.
Qed.

Lemma squeeze_wf A : wf_bytes (squeeze A).
Proof. unfold squeeze. apply Forall_take, lanes_bytes_wf. Qed.

End KeccakFacts.

Lemma keccak_length msg : length (keccak msg) = 32%nat.
Proof.
  unfold keccak, Keccak.keccak256. cbv zeta.
  apply KeccakFacts.squeeze_length, KeccakFacts.absorb_all_length.
  reflexivity.
Qed.

Lemma keccak_wf msg : wf_bytes (keccak msg).
Proof. unfold keccak, Keccak.keccak256. apply KeccakFacts.squeeze_wf. Qed.

(** A digest survives the trip through its 256-bit integer value. *)
Lemma keccak_be_bytes msg :
  be_bytes 32 (big_endian_to_int (keccak msg)) = keccak msg.
Proof.
  rewrite <- (keccak_length msg) at 1. apply be_bytes_of_int, keccak_wf.
Qed.

(** * The machine-word arithmetic agrees with the arithmetic over [Z] *)

Module FastFacts.
Import Fast.
Local Notation "[ x ]" := (BigZ.to_Z x).

Create Rewrite HintDb bigz.
#[local] Hint Rewrite BigZ.spec_of_Z BigZ.spec_add BigZ.spec_sub BigZ.spec_mul
  BigZ.spec_div BigZ.spec_modulo BigZ.spec_pow BigZ.spec_eqb BigZ.spec_ltb
  BigZ.spec_leb : bigz.

Lemma P_spec : [Fast.P] = Secp256k1.P.
Proof. apply BigZ.spec_of_Z. Qed.

Lemma inv_loop_spec fuel : forall lm hm low high,
  [Fast.inv_loop fuel lm hm low high] =
  Secp256k1.inv_loop fuel [lm] [hm] [low] [high].
Proof.
  induction fuel as [|fuel IH]; intros;
    cbn [Fast.inv_loop Secp256k1.inv_loop]; [reflexivity|].
  autorewrite with bigz.
  destruct (1 <? [low]); [|reflexivity].
  rewrite IH. autorewrite with bigz. reflexivity.
Qed.

Lemma inv_spec a n : [Fast.inv a n] = Secp256k1.inv [a] [n].
Proof.
  unfold Fast.inv, Secp256k1.inv. autorewrite with bigz.
  destruct ([a] =? 0); autorewrite with bigz; [reflexivity|].
  rewrite inv_loop_spec. autorewrite with bigz. reflexivity.
Qed.

Lemma jacobian_double_spec p :
  J (Fast.jacobian_double p) = Secp256k1.jacobian_double (J p).
Proof.
  destruct p as [[px py] pz].
  unfold Fast.jacobian_double, Secp256k1.jacobian_double, J.
  autorewrite with bigz.
  destruct ([py] =? 0); autorewrite with bigz; [reflexivity|].
  rewrite !P_spec. reflexivity.
Qed.

Lemma jacobian_add_spec p q :
  J (Fast.jacobian_add p q) = Secp256k1.jacobian_add (J p) (J q).
Proof.
  destruct p as [[px py] pz], q as [[qx qy] qz].
  unfold Fast.jacobian_add, Secp256k1.jacobian_add.
  cbn [J]. autorewrite with bigz. rewrite !P_spec.
  destruct ([py] =? 0); [reflexivity|].
  destruct ([qy] =? 0); [reflexivity|].
  match goal with |- context [if ?c then _ else _] => destruct c end.
  - match goal with |- context [if ?c then _ else _] => destruct c end.
    + cbn [J]. autorewrite with bigz. reflexivity.
    + apply (jacobian_double_spec (px, py, pz)).
  - cbn [J]. autorewrite with bigz. rewrite !P_spec. reflexivity.
Qed.

Lemma from_jacobian_spec p :
  (let '(x, y) := Fast.from_jacobian p in ([x], [y])) =
  Secp256k1.from_jacobian (J p).
Proof.
  destruct p as [[px py] pz].
  unfold Fast.from_jacobian, Secp256k1.from_jacobian, J.
  autorewrite with bigz. rewrite !inv_spec, !P_spec. reflexivity.
Qed.

Lemma jacobian_multiply_pos_spec a n :
  J (Fast.jacobian_multiply_pos a n) = Secp256k1.jacobian_multiply_pos (J a) n.
Proof.
  induction n as [n IH|n IH|];
    cbn [Fast.jacobian_multiply_pos Secp256k1.jacobian_multiply_pos].
  - rewrite jacobian_add_spec, jacobian_double_spec, IH. reflexivity.
  - rewrite jacobian_double_spec, IH. reflexivity.
  - reflexivity.
Qed.

Lemma pow_mod_pos_spec b e m :
  [Fast.pow_mod_pos b e m] = Secp256k1.pow_mod_pos [b] e [m].
Proof.
  induction e as [e IH|e IH|];
    cbn [Fast.pow_mod_pos Secp256k1.pow_mod_pos]; cbv zeta;
    autorewrite with bigz; rewrite ?IH; reflexivity.
Qed.

Lemma J_Jof p : J (Jof p) = p.
Proof.
  destruct p as [[x y] z]. cbn [J Jof]. autorewrite with bigz. reflexivity.
Qed.

Lemma inv'_eq a n : Fast.inv' a n = Secp256k1.inv a n.
Proof. unfold Fast.inv'. rewrite inv_spec. autorewrite with bigz. reflexivity. Qed.

Lemma jacobian_add'_eq p q :
  Fast.jacobian_add' p q = Secp256k1.jacobian_add p q.
Proof. unfold Fast.jacobian_add'. rewrite jacobian_add_spec, !J_Jof. reflexivity. Qed.

Lemma from_jacobian'_eq p : Fast.from_jacobian' p = Secp256k1.from_jacobian p.
Proof.
  unfold Fast.from_jacobian'. rewrite <- (J_Jof p) at 2.
  rewrite <- from_jacobian_spec. reflexivity.
Qed.

Lemma jacobian_multiply_eq a n :
  Fast.jacobian_multiply a n = Secp256k1.jacobian_multiply a n.
Proof.
  unfold Fast.jacobian_multiply, Secp256k1.jacobian_multiply.
  destruct ((snd (fst a) =? 0) || (n =? 0)); [reflexivity|].
  destruct (if (n <? 0) || (Secp256k1.N <=? n) then n mod Secp256k1.N else n);
    try reflexivity.
  rewrite jacobian_multiply_pos_spec, J_Jof. reflexivity.
Qed.

Lemma fast_multiply_eq a n :
  Fast.fast_multiply a n = Secp256k1.fast_multiply a n.
Proof.
  unfold Fast.fast_multiply, Secp256k1.fast_multiply.
  rewrite from_jacobian'_eq, jacobian_multiply_eq. reflexivity.
Qed.

Lemma pow_mod_eq b e m : Fast.pow_mod b e m = Secp256k1.pow_mod b e m.
Proof.
  unfold Fast.pow_mod, Secp256k1.pow_mod. destruct e; try reflexivity.
  rewrite pow_mod_pos_spec. autorewrite with bigz. reflexivity.
Qed.

End FastFacts.

Lemma private_key_to_public_key_fast d :
  Secp256k1.private_key_to_public_key d = Fast.private_key_to_public_key d.
Proof.
  unfold Secp256k1.private_key_to_public_key, Fast.private_key_to_public_key.
  rewrite FastFacts.fast_multiply_eq. reflexivity.
Qed.

Lemma ecdsa_raw_sign_fast z d k :
  Secp256k1.ecdsa_raw_sign z d k = Fast.ecdsa_raw_sign z d k.
Proof.
  unfold Secp256k1.ecdsa_raw_sign, Fast.ecdsa_raw_sign.
  rewrite FastFacts.fast_multiply_eq, FastFacts.inv'_eq. reflexivity.
Qed.

Lemma ecdsa_raw_recover_fast z v r s :
  Secp256k1.ecdsa_raw_recover z v r s = Fast.ecdsa_raw_recover z v r s.
Proof.
  unfold Secp256k1.ecdsa_raw_recover, Fast.ecdsa_raw_recover. cbv zeta.
  rewrite ?FastFacts.pow_mod_eq, ?FastFacts.from_jacobian'_eq,
    ?FastFacts.jacobian_multiply_eq, ?FastFacts.jacobian_add'_eq,
    ?FastFacts.inv'_eq.
  reflexivity.
Qed.

(** * The signature components fit 32 bytes *)

Lemma P_pos : 0 < Secp256k1.P < 2 ^ 256.
Proof. split; reflexivity. Qed.

Lemma N_pos : 0 < Secp256k1.N < 2 ^ 256.
Proof. split; reflexivity. Qed.

Lemma from_jacobian_range p :
  0 <= fst (Secp256k1.from_jacobian p) < Secp256k1.P
  /\ 0 <= snd (Secp256k1.from_jacobian p) < Secp256k1.P.
Proof.
  destruct p as [[px py] pz]. unfold Secp256k1.from_jacobian. cbn [fst snd].
  pose proof P_pos. split; apply Z.mod_pos_bound; lia.
Qed.

Lemma ecdsa_raw_sign_range z d k :
  let '(v, r, s) := Secp256k1.ecdsa_raw_sign z d k in
  (v = 0 \/ v = 1) /\ 0 <= r < Secp256k1.P /\ 0 <= s < Secp256k1.N.
Proof.
  unfold Secp256k1.ecdsa_raw_sign, Secp256k1.fast_multiply.
  pose proof (from_jacobian_range
    (Secp256k1.jacobian_multiply (Secp256k1.to_jacobian Secp256k1.G) k)) as Hr.
  destruct (Secp256k1.from_jacobian _) as [r y]. cbn [fst snd] in Hr.
  pose proof N_pos as HN.
  set (s_raw := (Secp256k1.inv k Secp256k1.N * (z + r * d)) mod Secp256k1.N).
  assert (0 <= s_raw < Secp256k1.N) as Hs
    by (apply Z.mod_pos_bound; lia).
  assert (y mod 2 = 0 \/ y mod 2 = 1) as Hy
    by (pose proof (Z.mod_pos_bound y 2); lia).
  split; [|split; [tauto|]].
  - destruct Hy as [-> | ->]; destruct (s_raw * 2 <? Secp256k1.N);
      cbn; auto.
  - destruct (s_raw * 2 <? Secp256k1.N) eqn:E; [lia|].
    apply Z.ltb_ge in E. lia.
Qed.

Lemma sign_message_range m key k :
  (sig_v (sign_message m key k) = 27 \/ sig_v (sign_message m key k) = 28)
  /\ 0 <= sig_r (sign_message m key k) < 2 ^ 256
  /\ 0 <= sig_s (sign_message m key k) < 2 ^ 256.
Proof.
  unfold sign_message.
  pose proof (ecdsa_raw_sign_range
    (big_endian_to_int (hash_eip191_message m)) key k) as H.
  destruct (Secp256k1.ecdsa_raw_sign _ key k) as [[v r] s].
  cbn [sig_v sig_r sig_s]. pose proof P_pos. pose proof N_pos.
  destruct H as ([-> | ->] & Hr & Hs); (split; [cbn; auto | lia]).
Qed.

Lemma messageHash_sign_message m key k :
  messageHash (sign_message m key k) = hash_eip191_message m.
Proof.
  unfold sign_message.
  destruct (Secp256k1.ecdsa_raw_sign _ key k) as [[v r] s]. reflexivity.
Qed.

Lemma byte_length_bound n :
  0 <= n < 2 ^ 256 -> (1 <= byte_length n <= 32)%nat.
Proof.
  intros Hn. unfold byte_length.
  assert (0 <= Z.log2 n < 256) as Hl.
  { split; [apply Z.log2_nonneg|].
    destruct (Z.eq_dec n 0) as [-> | Hz]; [cbn; lia|].
    apply Z.log2_lt_pow2; lia. }
  assert (0 <= Z.log2 n / 8 <= 31) as Hq.
  { split; [apply Z.div_pos; lia|].
    apply Z.lt_succ_r, Z.div_lt_upper_bound; lia. }
  lia.
Qed.

Lemma byte_length_fits n :
  0 <= n -> n < 256 ^ Z.of_nat (byte_length n).
Proof.
  intros Hn. unfold byte_length.
  assert (0 <= Z.log2 n / 8) as Hq
    by (apply Z.div_pos; [apply Z.log2_nonneg | lia]).
  rewrite Z2Nat.id by lia.
  change 256 with (2 ^ 8). rewrite <- Z.pow_mul_r by lia.
  destruct (Z.eq_dec n 0) as [-> | Hz].
  - apply Z.pow_pos_nonneg; lia.
  - apply Z.lt_le_trans with (2 ^ Z.succ (Z.log2 n)).
    + apply Z.log2_spec. lia.
    + apply Z.pow_le_mono_r; [lia|].
      pose proof (Z.mod_pos_bound (Z.log2 n) 8).
      pose proof (Z.div_mod (Z.log2 n) 8). lia.
Qed.

Lemma to_bytes_length n : length (to_bytes n) = byte_length n.
Proof. apply be_bytes_length. Qed.

Lemma to_bytes_value n : 0 <= n -> big_endian_to_int (to_bytes n) = n.
Proof.
  intros Hn. unfold to_bytes. rewrite be_bytes_value.
  apply Z.mod_small. split; [lia | apply byte_length_fits; lia].
Qed.

Lemma rjust_length width fill bs :
  (length bs <= width)%nat -> length (rjust width fill bs) = width.
Proof.
  intros H. unfold rjust.
  destruct (width <=? length bs)%nat eqn:E.
  - apply Nat.leb_le in E. lia.
  - rewrite length_app, repeat_length. lia.
Qed.

Lemma rjust_value width bs :
  big_endian_to_int (rjust width 0 bs) = big_endian_to_int bs.
Proof.
  unfold rjust. destruct (width <=? length bs)%nat; [reflexivity|].
  apply big_endian_to_int_zeros.
Qed.

Lemma rjust_to_bytes n :
  0 <= n < 2 ^ 256 ->
  (length (to_bytes n) <= 32)%nat
  /\ length (rjust 32 0 (to_bytes n)) = 32%nat
  /\ big_endian_to_int (rjust 32 0 (to_bytes n)) = n
  /\ abi_bytes32 (rjust 32 0 (to_bytes n)) = Some n.
Proof.
  intros Hn. pose proof (byte_length_bound n Hn) as Hb.
  rewrite to_bytes_length.
  assert (length (rjust 32 0 (to_bytes n)) = 32%nat) as Hl
    by (apply rjust_length; rewrite to_bytes_length; lia).
  assert (big_endian_to_int (rjust 32 0 (to_bytes n)) = n) as Hv
    by (rewrite rjust_value; apply to_bytes_value; lia).
  repeat split; [lia | assumption | assumption |].
  unfold abi_bytes32. rewrite Hl, Hv. reflexivity.
Qed.

(** * The Authorization message *)

Lemma str_of_len_32 : str_of_len 32 = encode "32".
Proof. reflexivity. Qed.

(** The signer's prefixed message hash is the verifier's, on any 32-byte
    digest. *)
Lemma hash_eip191_defunct digest :
  length digest = 32%nat ->
  hash_eip191_message (encode_defunct digest) = Verifier.prefixed digest.
Proof.
  intros Hlen. unfold hash_eip191_message, encode_defunct, Verifier.prefixed.
  cbn [version header body]. rewrite Hlen, str_of_len_32.
  apply (f_equal keccak). reflexivity.
Qed.

(** The issuer's packed message is the verifier's, once the two digests
    are read as 256-bit integers. *)
Lemma message_hash_domainHash CONTRACT user label data :
  Issuer.message_hash CONTRACT user label data =
  Verifier.domainHash user
    (big_endian_to_int (Issuer.credential_type_hash label))
    (big_endian_to_int (Issuer.credential_hash data)) CONTRACT.
Proof.
  unfold Issuer.message_hash, solidity_keccak, encode_packed,
    Verifier.domainHash, Verifier.domainMessage,
    Issuer.credential_type_hash, Issuer.credential_hash.
  cbn [map concat hex_encode_abi_type].
  rewrite !keccak_be_bytes, app_nil_r. reflexivity.
Qed.

(** C3: the message signed for an Authorization is keccak256 of the
    packed 20-byte subject, 32-byte credential type, 32-byte credential
    hash and 20-byte verifier address (104 bytes in that order), wrapped
    with the personal-message prefix; the signature is made over exactly
    that prefixed hash, and the verifier recomputes the same bytes. *)
Theorem authorization_wire_format PRIVATE_KEY CONTRACT user label data k :
  let ty := Issuer.credential_type_hash label in
  let h := Issuer.credential_hash data in
  let packed := be_bytes 20 user ++ ty ++ h ++ be_bytes 20 CONTRACT in
  let sg := Issuer.signed PRIVATE_KEY CONTRACT user label data k in
  length (be_bytes 20 user) = 20%nat /\ length ty = 32%nat
  /\ length h = 32%nat /\ length (be_bytes 20 CONTRACT) = 20%nat
  /\ length packed = 104%nat
  /\ Issuer.message_hash CONTRACT user label data = keccak packed
  /\ messageHash sg =
       keccak ([25] ++ encode "Ethereum Signed Message:" ++ [10]
                 ++ encode "32" ++ keccak packed)
  /\ (sig_v sg - 27, sig_r sg, sig_s sg) =
       Secp256k1.ecdsa_raw_sign (big_endian_to_int (messageHash sg))
         PRIVATE_KEY k
  /\ Verifier.prefixed
       (Verifier.domainHash user (big_endian_to_int ty)
          (big_endian_to_int h) CONTRACT) = messageHash sg.
Proof.
  cbv zeta.
  assert (Issuer.message_hash CONTRACT user label data =
          keccak (be_bytes 20 user ++ Issuer.credential_type_hash label
                    ++ Issuer.credential_hash data ++ be_bytes 20 CONTRACT))
    as Hpacked.
  { unfold Issuer.message_hash, solidity_keccak, encode_packed.
    cbn [map concat hex_encode_abi_type]. rewrite app_nil_r. reflexivity. }
  assert (messageHash (Issuer.signed PRIVATE_KEY CONTRACT user label data k)
          = Verifier.prefixed (Issuer.message_hash CONTRACT user label data))
    as Hsigned.
  { unfold Issuer.signed, Issuer.message.
    rewrite messageHash_sign_message. apply hash_eip191_defunct.
    apply keccak_length. }
  repeat apply conj.
  - apply be_bytes_length.
  - apply keccak_length.
  - apply keccak_length.
  - apply be_bytes_length.
  - rewrite !length_app, !be_bytes_length.
    unfold Issuer.credential_type_hash, Issuer.credential_hash.
    rewrite !keccak_length. reflexivity.
  - exact Hpacked.
  - rewrite Hsigned, Hpacked. reflexivity.
  - unfold Issuer.signed, sign_message.
    destruct (Secp256k1.ecdsa_raw_sign _ PRIVATE_KEY k) as [[v r] s] eqn:E.
    cbn [sig_v sig_r sig_s messageHash]. rewrite E. f_equal. f_equal. lia.
  - rewrite Hsigned, message_hash_domainHash. reflexivity.
Qed.

(** * The credential type shared by the two scripts *)

(** C9: the administrator script and the issuer script compute the same
    32-byte credential type, keccak256 of the text PERSONAL, and pass the
    same [bytes32] argument to [setAuthority] and [issueCredential]. *)
Theorem credential_type_agrees :
  Govt.credential_type Govt.label = Issuer.credential_type_hash Issuer.label
  /\ Govt.credential_type Govt.label = keccak (encode "PERSONAL")
  /\ length (Govt.credential_type Govt.label) = 32%nat
  /\ abi_bytes32 (Govt.credential_type Govt.label) =
       Some 0x7faece8b9311019b52505d71273b275ab6511619a1f2008a51cce429a2bbda61
  /\ abi_bytes32 (Issuer.credential_type_hash Issuer.label) =
       abi_bytes32 (Govt.credential_type Govt.label).
Proof.
  repeat apply conj.
  - reflexivity.
  - reflexivity.
  - apply keccak_length.
  - vm_compute. reflexivity.
  - reflexivity.
Qed.

(** * The signature submitted by the issuer *)

(** C10: whatever the key, the message and the nonce, the [r] and [s] of
    the issuer's signature encode in at most 32 bytes, so left-padding
    with zero bytes gives exactly 32 bytes holding the same value (no
    truncation), accepted as [bytes32] arguments; with the one-byte [v]
    (27 or 28) that is the 65-byte recoverable form. *)
Theorem signature_components_are_bytes32 m key k :
  let sg := sign_message m key k in
  let r := rjust 32 0 (to_bytes (sig_r sg)) in
  let s := rjust 32 0 (to_bytes (sig_s sg)) in
  (length (to_bytes (sig_r sg)) <= 32)%nat
  /\ (length (to_bytes (sig_s sg)) <= 32)%nat
  /\ length r = 32%nat /\ length s = 32%nat
  /\ big_endian_to_int r = sig_r sg /\ big_endian_to_int s = sig_s sg
  /\ abi_bytes32 r = Some (sig_r sg) /\ abi_bytes32 s = Some (sig_s sg)
  /\ abi_uint8 (sig_v sg) = Some (sig_v sg)
  /\ (sig_v sg = 27 \/ sig_v sg = 28)
  /\ length ([sig_v sg] ++ r ++ s) = 65%nat.
Proof.
  cbv zeta.
  destruct (sign_message_range m key k) as (Hv & Hr & Hs).
  destruct (rjust_to_bytes _ Hr) as (Hr1 & Hr2 & Hr3 & Hr4).
  destruct (rjust_to_bytes _ Hs) as (Hs1 & Hs2 & Hs3 & Hs4).
  repeat apply conj; try assumption.
  - destruct Hv as [-> | ->]; reflexivity.
  - rewrite !length_app, Hr2, Hs2. reflexivity.
Qed.

(** * The scripts' own keys, addresses and signature, evaluated *)

Lemma issuer_address :
  private_key_to_address Issuer.PRIVATE_KEY = Govt.authority.
Proof.
  unfold private_key_to_address. rewrite private_key_to_public_key_fast.
  vm_compute. reflexivity.
Qed.

Lemma govt_address :
  private_key_to_address Govt.PRIVATE_KEY = Scenario.government.
Proof.
  unfold private_key_to_address. rewrite private_key_to_public_key_fast.
  vm_compute. reflexivity.
Qed.

Lemma scenario_PERSONAL :
  big_endian_to_int (Issuer.credential_type_hash Issuer.label) =
  Scenario.PERSONAL.
Proof. vm_compute. reflexivity. Qed.

Lemma issuer_signature :
  Issuer.signed Issuer.PRIVATE_KEY Issuer.CONTRACT Issuer.user Issuer.label
    Issuer.data Scenario.nonce =
  {| messageHash :=
       Verifier.prefixed
         (Verifier.domainHash Issuer.user Scenario.PERSONAL Scenario.H
            Issuer.CONTRACT);
     sig_r := Scenario.sig_r; sig_s := Scenario.sig_s; sig_v := 27 |}.
Proof.
  unfold Issuer.signed, sign_message. rewrite ecdsa_raw_sign_fast.
  vm_compute. reflexivity.
Qed.

Lemma ecrecover_fast digest v r s :
  Verifier.ecrecover digest v r s =
  if ((v =? 27) || (v =? 28))
     && (0 <? r) && (r <? Secp256k1.N) && (0 <? s) && (s <? Secp256k1.N)
  then option_map public_key_to_address
         (Fast.ecdsa_raw_recover (big_endian_to_int digest) (v - 27) r s)
  else None.
Proof.
  unfold Verifier.ecrecover. rewrite ecdsa_raw_recover_fast. reflexivity.
Qed.

Lemma issuer_signature_recovers :
  Verifier.ecrecover
    (Verifier.prefixed
       (Verifier.domainHash Issuer.user Scenario.PERSONAL Scenario.H
          Issuer.CONTRACT))
    27 Scenario.sig_r Scenario.sig_s = Some Govt.authority.
Proof. rewrite ecrecover_fast. vm_compute. reflexivity. Qed.



(** * The verifier's transitions *)

Lemma issueCredential_authorized st subject ty h v r s :
  Verifier.authorized st subject ty h v r s ->
  Verifier.issueCredential st subject ty h v r s =
  ({| Verifier.government := Verifier.government st;
      Verifier.this := Verifier.this st;
      Verifier.authorities := Verifier.authorities st;
      Verifier.credentials :=
        <[(subject, ty) := h]> (Verifier.credentials st) |}, Verifier.Ok).
Proof.
  intros [Hrec Hnz]. unfold Verifier.issueCredential. cbv zeta.
  rewrite Hrec, Z.eqb_refl.
  destruct (Z.eqb_spec (Verifier.getAuthority st ty) 0) as [E | _];
    [contradiction | reflexivity].
Qed.

Lemma issueCredential_unauthorized st subject ty h v r s :
  ~ Verifier.authorized st subject ty h v r s ->
  Verifier.issueCredential st subject ty h v r s =
  (st, Verifier.Rejected
         match Verifier.ecrecover
                 (Verifier.prefixed
                    (Verifier.domainHash subject ty h (Verifier.this st)))
                 v r s with
         | Some _ => Verifier.Unauthorized
         | None => Verifier.MalformedSignature
         end).
Proof.
  intros Hno. unfold Verifier.issueCredential. cbv zeta.
  destruct (Verifier.ecrecover _ v r s) as [signer|] eqn:Hrec;
    [|reflexivity].
  destruct (Z.eqb_spec signer (Verifier.getAuthority st ty)) as [E | _];
    [|reflexivity].
  destruct (Z.eqb_spec (Verifier.getAuthority st ty) 0) as [_ | Hnz];
    [reflexivity|].
  exfalso. apply Hno. split; [congruence | assumption].
Qed.

Lemma authorized_dec st subject ty h v r s :
  Verifier.authorized st subject ty h v r s
  \/ ~ Verifier.authorized st subject ty h v r s.
Proof.
  unfold Verifier.authorized.
  destruct (Verifier.ecrecover _ v r s) as [signer|].
  - destruct (Z.eq_dec signer (Verifier.getAuthority st ty)) as [-> | Hne].
    + destruct (Z.eq_dec (Verifier.getAuthority st ty) 0) as [E | Hnz].
      * right. tauto.
      * left. tauto.
    + right. intros [E _]. congruence.
  - right. intros [E _]. discriminate.
Qed.

Lemma issueCredential_Ok_inv st subject ty h v r s :
  snd (Verifier.issueCredential st subject ty h v r s) = Verifier.Ok ->
  Verifier.authorized st subject ty h v r s.
Proof.
  intros Hok.
  destruct (authorized_dec st subject ty h v r s) as [H | H]; [exact H|].
  rewrite (issueCredential_unauthorized _ _ _ _ _ _ _ H) in Hok.
  discriminate.
Qed.

Lemma authorized_frame st st' subject ty h v r s :
  Verifier.this st' = Verifier.this st ->
  Verifier.getAuthority st' ty = Verifier.getAuthority st ty ->
  Verifier.authorized st subject ty h v r s ->
  Verifier.authorized st' subject ty h v r s.
Proof.
  unfold Verifier.authorized. intros -> ->. tauto.
Qed.


Lemma authority_not_zero : Govt.authority <> 0.
Proof. discriminate. Qed.

Lemma delegated_authority :
  Verifier.getAuthority Scenario.delegated Scenario.PERSONAL = Govt.authority.
Proof.
  unfold Verifier.getAuthority, Scenario.delegated.
  cbn [Verifier.authorities]. rewrite lookup_singleton_eq. reflexivity.
Qed.

Lemma scenario_authorized :
  Verifier.authorized Scenario.delegated Issuer.user Scenario.PERSONAL
    Scenario.H 27 Scenario.sig_r Scenario.sig_s.
Proof.
  split.
  - rewrite delegated_authority. exact issuer_signature_recovers.
  - rewrite delegated_authority. exact authority_not_zero.
Qed.



(** C8: [setAuthority] touches the registry entry of its credential type
    only: the Credential Store is the same map afterwards, every
    [getCredentialHash] answers as before, other types keep their
    authority, and the administrator and verifier address stay. *)
Theorem setAuthority_frame st sender ty authority user t :
  Verifier.credentials (fst (Verifier.setAuthority st sender ty authority))
  = Verifier.credentials st
  /\ Verifier.getCredentialHash
       (fst (Verifier.setAuthority st sender ty authority)) user t
     = Verifier.getCredentialHash st user t
  /\ Verifier.getAuthority
       (fst (Verifier.setAuthority st sender ty authority)) t
     = (if (sender =? Verifier.government st) && (t =? ty)
        then authority else Verifier.getAuthority st t)
  /\ Verifier.government (fst (Verifier.setAuthority st sender ty authority))
     = Verifier.government st
  /\ Verifier.this (fst (Verifier.setAuthority st sender ty authority))
     = Verifier.this st.
Proof.
  unfold Verifier.setAuthority, Verifier.getCredentialHash,
    Verifier.getAuthority.
  destruct (sender =? Verifier.government st); cbn [fst andb];
    repeat apply conj; try reflexivity.
  cbn [Verifier.authorities].
  destruct (Z.eqb_spec t ty) as [-> | Hne].
  - rewrite lookup_insert_eq. reflexivity.
  - rewrite lookup_insert_ne by congruence. reflexivity.
Qed.

(** C7: submitting an accepted Authorization a second time is accepted
    again and leaves the state, hence the stored hash, as the first
    submission left it. *)
Theorem resubmission_is_idempotent st subject ty h v r s :
  snd (Verifier.issueCredential st subject ty h v r s) = Verifier.Ok ->
  Verifier.issueCredential
    (fst (Verifier.issueCredential st subject ty h v r s))
    subject ty h v r s
  = (fst (Verifier.issueCredential st subject ty h v r s), Verifier.Ok)
  /\ Verifier.getCredentialHash
       (fst (Verifier.issueCredential st subject ty h v r s)) subject ty = h.
Proof.
  intros Hok. apply issueCredential_Ok_inv in Hok.
  rewrite (issueCredential_authorized _ _ _ _ _ _ _ Hok). cbn [fst].
  split.
  - rewrite issueCredential_authorized
      by (eapply authorized_frame; [| |exact Hok]; reflexivity).
    cbn [Verifier.government Verifier.this Verifier.authorities
         Verifier.credentials].
    rewrite insert_insert_eq. reflexivity.
  - unfold Verifier.getCredentialHash. cbn [Verifier.credentials].
    rewrite lookup_insert_eq. reflexivity.
Qed.

Lemma resubmission_is_idempotent_witness :
  snd (Verifier.issueCredential Scenario.delegated Issuer.user
         Scenario.PERSONAL Scenario.H 27 Scenario.sig_r Scenario.sig_s)
  = Verifier.Ok
  /\ Verifier.issueCredential
       (fst (Verifier.issueCredential Scenario.delegated Issuer.user
               Scenario.PERSONAL Scenario.H 27 Scenario.sig_r Scenario.sig_s))
       Issuer.user Scenario.PERSONAL Scenario.H 27 Scenario.sig_r
       Scenario.sig_s
     = (fst (Verifier.issueCredential Scenario.delegated Issuer.user
               Scenario.PERSONAL Scenario.H 27 Scenario.sig_r Scenario.sig_s),
        Verifier.Ok)
  /\ Verifier.getCredentialHash
       (fst (Verifier.issueCredential Scenario.delegated Issuer.user
               Scenario.PERSONAL Scenario.H 27 Scenario.sig_r Scenario.sig_s))
       Issuer.user Scenario.PERSONAL = Scenario.H.
Proof.
  assert (snd (Verifier.issueCredential Scenario.delegated Issuer.user
                 Scenario.PERSONAL Scenario.H 27 Scenario.sig_r
                 Scenario.sig_s) = Verifier.Ok) as H.
  { rewrite (issueCredential_authorized _ _ _ _ _ _ _ scenario_authorized).
    reflexivity. }
  split; [exact H|].
  exact (resubmission_is_idempotent _ _ _ _ _ _ _ H).
Defined.

(** * Issuance by the registered authority *)

Lemma abi_bytes32_keccak msg :
  abi_bytes32 (keccak msg) = Some (big_endian_to_int (keccak msg)).
Proof. unfold abi_bytes32. rewrite keccak_length. reflexivity. Qed.

Lemma abi_uint8_v m key k :
  abi_uint8 (sig_v (sign_message m key k)) =
  Some (sig_v (sign_message m key k)).
Proof.
  destruct (sign_message_range m key k) as ([-> | ->] & _); reflexivity.
Qed.

(** The call the issuer script builds. *)
Lemma issuer_tx_call PRIVATE_KEY CONTRACT user label data k :
  Issuer.tx PRIVATE_KEY CONTRACT user label data k =
  Some {| tx_from := private_key_to_address PRIVATE_KEY;
          tx_call :=
            IssueCredential user
              (big_endian_to_int (Issuer.credential_type_hash label))
              (big_endian_to_int (Issuer.credential_hash data))
              (sig_v (Issuer.signed PRIVATE_KEY CONTRACT user label data k))
              (sig_r (Issuer.signed PRIVATE_KEY CONTRACT user label data k))
              (sig_s (Issuer.signed PRIVATE_KEY CONTRACT user label data k))
       |}.
Proof.
  unfold Issuer.tx, call_issueCredential.
  unfold Issuer.credential_type_hash at 1, Issuer.credential_hash at 1.
  rewrite !abi_bytes32_keccak.
  unfold Issuer.signed. rewrite abi_uint8_v.
  destruct (sign_message_range
              (Issuer.message CONTRACT user label data) PRIVATE_KEY k)
    as (_ & Hr & Hs).
  destruct (rjust_to_bytes _ Hr) as (_ & _ & _ & ->).
  destruct (rjust_to_bytes _ Hs) as (_ & _ & _ & ->).
  reflexivity.
Qed.


(** The transactions of the scenario are the ones the two scripts build
    from their own constants. *)
Lemma govt_script_tx :
  Govt.tx Govt.PRIVATE_KEY Govt.label Govt.authority = Some Scenario.govt_tx.
Proof.
  unfold Govt.tx, call_setAuthority, Govt.credential_type.
  rewrite abi_bytes32_keccak, govt_address.
  change (keccak (encode Govt.label))
    with (Issuer.credential_type_hash Issuer.label).
  rewrite scenario_PERSONAL. reflexivity.
Qed.

Lemma issuer_script_tx :
  Issuer.tx Issuer.PRIVATE_KEY Issuer.CONTRACT Issuer.user Issuer.label
    Issuer.data Scenario.nonce = Some Scenario.issuer_tx.
Proof.
  rewrite issuer_tx_call, issuer_signature, issuer_address, scenario_PERSONAL.
  reflexivity.
Qed.



(** * Every record comes from an authorized commit *)

Lemma run_app st a b :
  Verifier.run st (a ++ b) = Verifier.run (Verifier.run st a) b.
Proof. unfold Verifier.run. apply fold_left_app. Qed.

Lemma run_snoc st a tx :
  Verifier.run st (a ++ [tx]) = fst (Verifier.exec (Verifier.run st a) tx).
Proof. rewrite run_app. reflexivity. Qed.

Lemma any_commit_app subject ty a : forall st b,
  Verifier.any_commit st (a ++ b) subject ty =
  Verifier.any_commit st a subject ty
  || Verifier.any_commit (Verifier.run st a) b subject ty.
Proof.
  induction a as [|tx a IH]; intros st b; [reflexivity|].
  cbn [app Verifier.any_commit]. rewrite IH, orb_assoc. reflexivity.
Qed.

(** One transaction either is an authorized commit to the pair, and the
    record is then its hash, or leaves the pair's record as it was. *)
Lemma exec_commit_cases st tx subject ty :
  (Verifier.commits_to st tx subject ty = true
   /\ exists sender h v r s,
        tx = {| tx_from := sender;
                tx_call := IssueCredential subject ty h v r s |}
        /\ Verifier.authorized st subject ty h v r s
        /\ Verifier.credentials (fst (Verifier.exec st tx)) !! (subject, ty)
           = Some h)
  \/ (Verifier.commits_to st tx subject ty = false
      /\ Verifier.credentials (fst (Verifier.exec st tx)) !! (subject, ty)
         = Verifier.credentials st !! (subject, ty)).
Proof.
  destruct tx as [sender [user t h v r s | t a]];
    unfold Verifier.commits_to, Verifier.exec; cbn [tx_call tx_from].
  - destruct (authorized_dec st user t h v r s) as [Hok | Hno].
    + rewrite (issueCredential_authorized _ _ _ _ _ _ _ Hok). cbn [fst snd].
      destruct (Z.eqb_spec user subject) as [-> | Hu];
        [destruct (Z.eqb_spec t ty) as [-> | Ht]|]; cbn [andb].
      * left. split; [reflexivity|]. exists sender, h, v, r, s.
        split; [reflexivity|]. split; [exact Hok|].
        cbn [Verifier.credentials]. apply lookup_insert_eq.
      * right. split; [reflexivity|]. cbn [Verifier.credentials].
        apply lookup_insert_ne. congruence.
      * right. split; [reflexivity|]. cbn [Verifier.credentials].
        apply lookup_insert_ne. congruence.
    + rewrite (issueCredential_unauthorized _ _ _ _ _ _ _ Hno).
      right. split; reflexivity.
  - right. split; [reflexivity|].
    unfold Verifier.setAuthority.
    destruct (sender =? Verifier.government st); reflexivity.
Qed.

(** C5: in every state reached from deployment by any sequence of
    transactions, a record for (subject, type) exists only if the
    sequence contains an [issueCredential] for that pair and hash that
    was accepted, that is, run at a moment when the registry's entry for
    the type was the non-zero address recovered from its signature, and
    no later transaction committed to the pair again. *)
Theorem record_has_authorized_commit government this txs subject ty h :
  Verifier.credentials
    (Verifier.run (Verifier.init government this) txs) !! (subject, ty)
  = Some h ->
  exists pre sender v r s post,
    txs = pre ++ {| tx_from := sender;
                    tx_call := IssueCredential subject ty h v r s |} :: post
    /\ Verifier.authorized
         (Verifier.run (Verifier.init government this) pre)
         subject ty h v r s
    /\ Verifier.any_commit
         (Verifier.run (Verifier.init government this)
            (pre ++ [{| tx_from := sender;
                        tx_call := IssueCredential subject ty h v r s |}]))
         post subject ty = false.
Proof.
  revert h. induction txs as [|tx txs IH] using rev_ind; intros h Hrec.
  - cbn in Hrec. rewrite lookup_empty in Hrec. discriminate.
  - rewrite run_snoc in Hrec.
    destruct (exec_commit_cases
                (Verifier.run (Verifier.init government this) txs)
                tx subject ty)
      as [(_ & sender & h' & v & r & s & -> & Hok & Hnew) | (Hnc & Hsame)].
    + rewrite Hnew in Hrec. injection Hrec as <-.
      exists txs, sender, v, r, s, [].
      split; [reflexivity|]. split; [exact Hok | reflexivity].
    + rewrite Hsame in Hrec.
      destruct (IH h Hrec) as (pre & sender & v & r & s & post
                               & Htxs & Hok & Hlater).
      exists pre, sender, v, r, s, (post ++ [tx]).
      split; [|split].
      * rewrite Htxs, <- app_assoc. reflexivity.
      * exact Hok.
      * rewrite any_commit_app, Hlater, <- run_app, <- app_assoc.
        cbn [app Verifier.any_commit orb].
        rewrite <- Htxs, Hnc. reflexivity.
Qed.

Lemma scenario_run :
  Verifier.run Scenario.deployed [Scenario.govt_tx; Scenario.issuer_tx]
  = Scenario.issued.
Proof.
  unfold Verifier.run. cbn [fold_left].
  assert (fst (Verifier.exec Scenario.deployed Scenario.govt_tx)
          = Scenario.delegated) as -> by reflexivity.
  unfold Verifier.exec, Scenario.issuer_tx. cbn [tx_call].
  rewrite (issueCredential_authorized _ _ _ _ _ _ _ scenario_authorized).
  reflexivity.
Qed.

Lemma record_has_authorized_commit_witness :
  Verifier.credentials
    (Verifier.run (Verifier.init Scenario.government Issuer.CONTRACT)
       [Scenario.govt_tx; Scenario.issuer_tx])
    !! (Issuer.user, Scenario.PERSONAL) = Some Scenario.H
  /\ exists pre sender v r s post,
       [Scenario.govt_tx; Scenario.issuer_tx] =
       pre ++ {| tx_from := sender;
                 tx_call := IssueCredential Issuer.user Scenario.PERSONAL
                              Scenario.H v r s |} :: post
       /\ Verifier.authorized
            (Verifier.run (Verifier.init Scenario.government Issuer.CONTRACT)
               pre)
            Issuer.user Scenario.PERSONAL Scenario.H v r s
       /\ Verifier.any_commit
            (Verifier.run (Verifier.init Scenario.government Issuer.CONTRACT)
               (pre ++ [{| tx_from := sender;
                           tx_call := IssueCredential Issuer.user
                                        Scenario.PERSONAL Scenario.H v r s |}]))
            post Issuer.user Scenario.PERSONAL = false.
Proof.
  assert (Verifier.credentials
    (Verifier.run (Verifier.init Scenario.government Issuer.CONTRACT)
       [Scenario.govt_tx; Scenario.issuer_tx])
    !! (Issuer.user, Scenario.PERSONAL) = Some Scenario.H) as H.
  { change (Verifier.init Scenario.government Issuer.CONTRACT)
      with Scenario.deployed.
    rewrite scenario_run. unfold Scenario.issued.
    cbn [Verifier.credentials]. apply lookup_singleton_eq. }
  split; [exact H|].
  exact (record_has_authorized_commit _ _ _ _ _ _ H).
Defined.

(** * Claim serialization *)








(** * Replay against another verifier instance *)







(** * Further properties of the primitives the scripts call *)

(** ** Strings and their UTF-8 encoding *)

Lemma unescape_escape c X :
  unescape_head (escape_char c ++ X) = Some (c, X).
Proof.
  destruct c as [[] [] [] [] [] [] [] []]; reflexivity.
Qed.

Lemma escape_char_head c :
  exists h t, escape_char c = String h t /\ h <> dquote.
Proof.
  destruct c as [[] [] [] [] [] [] [] []];
    (eexists; eexists; split; [reflexivity | discriminate]).
Qed.

Lemma escape_char_printable c :
  Forall (fun b => 32 <= b <= 126) (encode (escape_char c)).
Proof.
  destruct c as [[] [] [] [] [] [] [] []]; vm_compute;
    repeat (constructor; [split; discriminate|]); constructor.
Qed.

Lemma append_cons c (s t : string) :
  (String c s ++ t)%string = String c (s ++ t).
Proof. reflexivity. Qed.

Lemma string_app_assoc (a b c : string) :
  ((a ++ b) ++ c = a ++ (b ++ c))%string.
Proof.
  induction a as [|x a IH]; [reflexivity|].
  rewrite !append_cons, IH. reflexivity.
Qed.

Lemma encode_app s1 s2 : encode (s1 ++ s2) = encode s1 ++ encode s2.
Proof.
  induction s1 as [|c s1 IH]; [reflexivity|].
  rewrite append_cons. cbn [encode]. rewrite IH, List.app_assoc. reflexivity.
Qed.

Lemma ord_range c : 0 <= ord c < 256.
Proof. unfold ord. pose proof (N_ascii_bounded c). lia. Qed.

Lemma ord_inj c1 c2 : ord c1 = ord c2 -> c1 = c2.
Proof.
  unfold ord. intros H. apply N2Z.inj in H.
  rewrite <- (ascii_N_embedding c1), <- (ascii_N_embedding c2), H.
  reflexivity.
Qed.

(** UTF-8 is uniquely decodable from the front. *)
Lemma encode_char_prefix c1 c2 X Y :
  encode_char c1 ++ X = encode_char c2 ++ Y -> c1 = c2 /\ X = Y.
Proof.
  unfold encode_char.
  pose proof (ord_range c1) as H1. pose proof (ord_range c2) as H2.
  destruct (Z.ltb_spec (ord c1) 128) as [L1 | L1];
    destruct (Z.ltb_spec (ord c2) 128) as [L2 | L2];
    cbn [app]; intros E.
  - injection E as E1 E2. split; [apply ord_inj; exact E1 | exact E2].
  - injection E as E1 _. exfalso.
    pose proof (Z.div_le_lower_bound (ord c2) 64 2). lia.
  - injection E as E1 _. exfalso.
    pose proof (Z.div_le_lower_bound (ord c1) 64 2). lia.
  - injection E as E1 E2 E3. split; [|exact E3]. apply ord_inj.
    rewrite (Z.div_mod (ord c1) 64), (Z.div_mod (ord c2) 64) by lia. lia.
Qed.

Lemma encode_inj s1 : forall s2, encode s1 = encode s2 -> s1 = s2.
Proof.
  induction s1 as [|c1 s1 IH]; intros [|c2 s2] E; cbn [encode] in E.
  - reflexivity.
  - exfalso. unfold encode_char in E.
    destruct (ord c2 <? 128); discriminate.
  - exfalso. unfold encode_char in E.
    destruct (ord c1 <? 128); discriminate.
  - apply encode_char_prefix in E as [-> E]. rewrite (IH _ E). reflexivity.
Qed.

Lemma encode_wf s : wf_bytes (encode s).
Proof.
  induction s as [|c s IH]; [constructor|].
  cbn [encode]. apply Forall_app. split; [|exact IH].
  unfold encode_char. pose proof (ord_range c) as H.
  destruct (Z.ltb_spec (ord c) 128) as [L | L].
  - constructor; [unfold is_byte; lia | constructor].
  - pose proof (Z.div_le_lower_bound (ord c) 64 2).
    pose proof (Z.div_lt_upper_bound (ord c) 64 4).
    pose proof (Z.mod_pos_bound (ord c) 64).
    repeat constructor; unfold is_byte; lia.
Qed.

Lemma encode_length s :
  (String.length s <= length (encode s) <= 2 * String.length s)%nat.
Proof.
  induction s as [|c s IH]; [cbn; lia|].
  cbn [encode String.length]. rewrite length_app.
  unfold encode_char. destruct (ord c <? 128); cbn [length]; lia.
Qed.

(** X1: [str.encode()] is injective on strings of code points below
    256: two such strings with the same UTF-8 bytes are the same
    string. *)
Theorem utf8_encode_injective s1 s2 : encode s1 = encode s2 -> s1 = s2.
Proof. apply encode_inj. Qed.

Lemma utf8_encode_injective_witness :
  encode Issuer.label = encode Govt.label /\ Issuer.label = Govt.label.
Proof.
  assert (encode Issuer.label = encode Govt.label) as H by reflexivity.
  split; [exact H | exact (utf8_encode_injective _ _ H)].
Defined.

(** X2: on strings of code points below 256, [str.encode()] gives
    bytes in range, one or two for each character, and encodes a
    concatenation piece by piece. *)
Theorem utf8_encode_shape s1 s2 :
  wf_bytes (encode s1)
  /\ (String.length s1 <= length (encode s1) <= 2 * String.length s1)%nat
  /\ encode (s1 ++ s2) = encode s1 ++ encode s2.
Proof.
  split; [apply encode_wf|]. split; [apply encode_length | apply encode_app].
Qed.

(** ** The serialized claim *)

Lemma printable_app a b : printable a -> printable b -> printable (a ++ b).
Proof. intros Ha Hb. apply Forall_app. split; assumption. Qed.

Ltac printable_literal :=
  unfold printable;
  match goal with
  | |- Forall _ ?l =>
      let l' := eval vm_compute in l in change l with l'
  end;
  repeat (constructor; [lia|]); constructor.

Lemma escape_body_printable s : printable (encode (escape_body s)).
Proof.
  induction s as [|c s IH]; [constructor|].
  cbn [escape_body]. rewrite encode_app.
  apply printable_app; [apply escape_char_printable | exact IH].
Qed.

Lemma encode_basestring_ascii_printable s :
  printable (encode (encode_basestring_ascii s)).
Proof.
  unfold encode_basestring_ascii. rewrite append_cons.
  cbn [encode]. rewrite encode_app.
  apply printable_app; [printable_literal|].
  apply printable_app; [apply escape_body_printable | printable_literal].
Qed.

Lemma dumps_item_printable kv : printable (encode (dumps_item kv)).
Proof.
  unfold dumps_item. rewrite !encode_app.
  apply printable_app; [apply encode_basestring_ascii_printable|].
  apply printable_app;
    [printable_literal | apply encode_basestring_ascii_printable].
Qed.

Lemma join_cons sep x y l :
  join sep (x :: y :: l) = (x ++ sep ++ join sep (y :: l))%string.
Proof. reflexivity. Qed.

Lemma join_printable l :
  Forall (fun s => printable (encode s)) l ->
  printable (encode (join ", " l)).
Proof.
  induction l as [|x [|y l] IH]; intros H.
  - constructor.
  - inversion H; subst. assumption.
  - rewrite join_cons, !encode_app. inversion H as [|? ? Hx Hl]; subst.
    apply printable_app; [exact Hx|].
    apply printable_app; [printable_literal | exact (IH Hl)].
Qed.

Lemma json_dumps_printable d : printable (encode (json_dumps d)).
Proof.
  unfold json_dumps. rewrite !encode_app.
  apply printable_app; [printable_literal|].
  apply printable_app; [|printable_literal].
  apply join_printable. apply Forall_map, Forall_forall.
  intros kv _. apply dumps_item_printable.
Qed.

Lemma encode_ascii s :
  printable (encode s) -> encode s = map ord (list_ascii_of_string s).
Proof.
  induction s as [|c s IH]; intros H; [reflexivity|].
  cbn [encode list_ascii_of_string map] in *.
  apply Forall_app in H as [Hc Hs]. rewrite (IH Hs).
  unfold encode_char in *. pose proof (ord_range c).
  destruct (Z.ltb_spec (ord c) 128) as [L | L]; [reflexivity|].
  exfalso. inversion Hc as [|? ? Hb _]; subst.
  pose proof (Z.div_le_lower_bound (ord c) 64 2). lia.
Qed.

(** X3: whatever the claim holds, [json.dumps(data).encode()] is
    printable ASCII, one byte for each character of the JSON text. *)
Theorem json_dumps_is_ascii d :
  Forall (fun b => 32 <= b <= 126) (encode (json_dumps d))
  /\ encode (json_dumps d) = map ord (list_ascii_of_string (json_dumps d))
  /\ length (encode (json_dumps d)) = String.length (json_dumps d).
Proof.
  pose proof (json_dumps_printable d) as H.
  split; [exact H|]. rewrite (encode_ascii _ H). split; [reflexivity|].
  rewrite length_map. clear H.
  induction (json_dumps d) as [|c s IH]; [reflexivity|].
  cbn [list_ascii_of_string length String.length]. rewrite IH. reflexivity.
Qed.

(** The escaping of a string body can be read back up to the closing
    quote, whatever follows it. *)
Lemma escape_char_prefix c1 c2 X Y :
  (escape_char c1 ++ X = escape_char c2 ++ Y)%string -> c1 = c2 /\ X = Y.
Proof.
  intros E. apply (f_equal unescape_head) in E.
  rewrite !unescape_escape in E. injection E as -> ->. split; reflexivity.
Qed.

Lemma string_app_inv_head (p a b : string) :
  (p ++ a = p ++ b)%string -> a = b.
Proof.
  induction p as [|c p IH]; intros E; [exact E|].
  rewrite !append_cons in E. injection E as E. exact (IH E).
Qed.

Lemma escape_body_delimited s1 : forall s2 r1 r2,
  (escape_body s1 ++ String dquote r1
   = escape_body s2 ++ String dquote r2)%string ->
  s1 = s2 /\ r1 = r2.
Proof.
  induction s1 as [|c1 s1 IH]; intros [|c2 s2] r1 r2 E;
    cbn [escape_body] in E.
  - injection E as ->. split; reflexivity.
  - exfalso. rewrite string_app_assoc in E.
    destruct (escape_char_head c2) as (h & t & Hc & Hh).
    rewrite Hc in E. injection E as E _. congruence.
  - exfalso. rewrite string_app_assoc in E.
    destruct (escape_char_head c1) as (h & t & Hc & Hh).
    rewrite Hc in E. injection E as E _. congruence.
  - rewrite !string_app_assoc in E.
    apply escape_char_prefix in E as [-> E].
    apply IH in E as [-> ->]. split; reflexivity.
Qed.

Lemma encode_basestring_ascii_delimited s1 s2 r1 r2 :
  (encode_basestring_ascii s1 ++ r1
   = encode_basestring_ascii s2 ++ r2)%string ->
  s1 = s2 /\ r1 = r2.
Proof.
  unfold encode_basestring_ascii. rewrite !append_cons, !string_app_assoc.
  intros E. injection E as E.
  rewrite !append_cons in E. apply escape_body_delimited in E. exact E.
Qed.

Lemma dumps_item_delimited kv1 kv2 r1 r2 :
  (dumps_item kv1 ++ r1 = dumps_item kv2 ++ r2)%string ->
  kv1 = kv2 /\ r1 = r2.
Proof.
  destruct kv1 as [k1 v1], kv2 as [k2 v2]. unfold dumps_item. cbn [fst snd].
  rewrite !string_app_assoc. intros E.
  apply encode_basestring_ascii_delimited in E as [-> E].
  apply string_app_inv_head in E.
  apply encode_basestring_ascii_delimited in E as [-> ->].
  split; reflexivity.
Qed.

Lemma dumps_item_head kv : exists t, dumps_item kv = String dquote t.
Proof. unfold dumps_item, encode_basestring_ascii. eexists. reflexivity. Qed.

Lemma join_items_inj d1 : forall d2,
  (join ", " (map dumps_item d1) ++ "}"
   = join ", " (map dumps_item d2) ++ "}")%string ->
  d1 = d2.
Proof.
  induction d1 as [|kv1 d1 IH]; intros [|kv2 d2] E.
  - reflexivity.
  - exfalso. cbn [map] in E.
    destruct (dumps_item_head kv2) as [t Ht].
    destruct d2 as [|kv d2]; cbn [map join] in E; rewrite Ht in E;
      discriminate.
  - exfalso. cbn [map] in E.
    destruct (dumps_item_head kv1) as [t Ht].
    destruct d1 as [|kv d1]; cbn [map join] in E; rewrite Ht in E;
      discriminate.
  - cbn [map] in E.
    destruct d1 as [|kv1' d1], d2 as [|kv2' d2]; cbn [map] in E.
    + cbn [join] in E. apply dumps_item_delimited in E as [-> _].
      reflexivity.
    + exfalso. rewrite join_cons in E. cbn [join] in E.
      rewrite !string_app_assoc in E.
      apply dumps_item_delimited in E as [_ E]. discriminate.
    + exfalso. rewrite join_cons in E. cbn [join] in E.
      rewrite !string_app_assoc in E.
      apply dumps_item_delimited in E as [_ E]. discriminate.
    + rewrite !join_cons, !string_app_assoc in E.
      apply dumps_item_delimited in E as [-> E].
      apply string_app_inv_head in E.
      rewrite (IH (kv2' :: d2) E). reflexivity.
Qed.

(** X4: the bytes that are hashed determine the claim: two dictionaries
    with the same serialization have the same items in the same order. *)
Theorem json_dumps_injective d1 d2 :
  encode (json_dumps d1) = encode (json_dumps d2) -> d1 = d2.
Proof.
  intros E. apply encode_inj in E. unfold json_dumps in E.
  apply string_app_inv_head in E.
  apply join_items_inj. exact E.
Qed.

Lemma json_dumps_injective_witness :
  encode (json_dumps Issuer.data)
  = encode (json_dumps (dict_set Issuer.data "spouse" ""))
  /\ Issuer.data = dict_set Issuer.data "spouse" "".
Proof.
  assert (encode (json_dumps Issuer.data)
          = encode (json_dumps (dict_set Issuer.data "spouse" ""))) as H
    by reflexivity.
  split; [exact H | exact (json_dumps_injective _ _ H)].
Defined.

(** ** Dictionary displays *)

Lemma dict_get_set d k v k' :
  dict_get (dict_set d k v) k' =
  if String.eqb k k' then Some v else dict_get d k'.
Proof.
  induction d as [|[k0 v0] d IH]; cbn [dict_set dict_get].
  - reflexivity.
  - destruct (String.eqb_spec k0 k) as [-> | Hne]; cbn [dict_get].
    + destruct (String.eqb_spec k k'); reflexivity.
    + rewrite IH. destruct (String.eqb_spec k0 k') as [-> | Hne'];
        [|reflexivity].
      destruct (String.eqb_spec k k'); [congruence | reflexivity].
Qed.

Lemma dict_get_app d1 d2 k :
  dict_get (d1 ++ d2) k =
  match dict_get d1 k with Some v => Some v | None => dict_get d2 k end.
Proof.
  induction d1 as [|[k0 v0] d1 IH]; [reflexivity|].
  cbn [app dict_get]. destruct (String.eqb k0 k); [reflexivity | exact IH].
Qed.

Lemma keys_dict_set d k v :
  (In k (keys d) /\ keys (dict_set d k v) = keys d)
  \/ (~ In k (keys d) /\ keys (dict_set d k v) = keys d ++ [k]).
Proof.
  induction d as [|[k0 v0] d IH]; cbn [dict_set].
  - right. split; [intros []|reflexivity].
  - destruct (String.eqb_spec k0 k) as [-> | Hne].
    + left. split; [left|]; reflexivity.
    + destruct IH as [[Hin IH] | [Hin IH]]; unfold keys in *; cbn [map fst].
      * left. split; [right; exact Hin | rewrite IH; reflexivity].
      * right. split; [|rewrite IH; reflexivity].
        intros [E | Hk]; [congruence | exact (Hin Hk)].
Qed.

Lemma keys_dict_set_NoDup d k v :
  List.NoDup (keys d) -> List.NoDup (keys (dict_set d k v)).
Proof.
  intros H. destruct (keys_dict_set d k v) as [[_ ->] | [Hin ->]];
    [exact H|].
  apply List.NoDup_app; [exact H | repeat constructor; intros [] |].
  intros a Ha [<- | []]. exact (Hin Ha).
Qed.

Lemma dict_literal_fold items : forall d k,
  dict_get (fold_left (fun d kv => dict_set d (fst kv) (snd kv)) items d) k
  = match dict_get (rev items) k with
    | Some v => Some v
    | None => dict_get d k
    end.
Proof.
  induction items as [|[k0 v0] items IH]; intros d k; [reflexivity|].
  cbn [fold_left rev fst snd]. rewrite IH, dict_get_app, dict_get_set.
  cbn [dict_get]. destruct (dict_get (rev items) k); [reflexivity|].
  destruct (String.eqb k0 k); reflexivity.
Qed.

Lemma dict_literal_fold_NoDup items : forall d,
  List.NoDup (keys d) ->
  List.NoDup
    (keys (fold_left (fun d kv => dict_set d (fst kv) (snd kv)) items d)).
Proof.
  induction items as [|kv items IH]; intros d H; [exact H|].
  cbn [fold_left]. apply IH, keys_dict_set_NoDup, H.
Qed.

Lemma nodup_app_skip (k : string) Y : In k Y -> forall X,
  nodup string_dec (X ++ k :: Y) = nodup string_dec (X ++ Y).
Proof.
  intros Hk. induction X as [|x X IH]; cbn [app nodup].
  - destruct (in_dec string_dec k Y); [reflexivity | contradiction].
  - rewrite IH.
    destruct (in_dec string_dec x (X ++ k :: Y)) as [H1 | H1];
      destruct (in_dec string_dec x (X ++ Y)) as [H2 | H2];
      try reflexivity; exfalso.
    + apply H2. apply in_app_or in H1 as [H | [<- | H]];
        apply in_or_app; auto.
    + apply H1. apply in_app_or in H2 as [H | H];
        apply in_or_app; [left | right; right]; exact H.
Qed.

Lemma dict_literal_fold_keys items : forall d,
  List.NoDup (keys d) ->
  keys (fold_left (fun d kv => dict_set d (fst kv) (snd kv)) items d)
  = rev (nodup string_dec (rev (keys d ++ map fst items))).
Proof.
  induction items as [|[k v] items IH]; intros d H.
  - cbn [fold_left map]. rewrite app_nil_r.
    rewrite nodup_fixed_point by (apply NoDup_rev; exact H).
    rewrite rev_involutive. reflexivity.
  - cbn [fold_left map fst snd].
    rewrite IH by (apply keys_dict_set_NoDup; exact H).
    destruct (keys_dict_set d k v) as [[Hin ->] | [Hin ->]].
    + rewrite (rev_app_distr (keys d) (k :: map fst items)).
      cbn [rev]. rewrite <- List.app_assoc. cbn [app].
      rewrite nodup_app_skip by (apply in_rev in Hin; exact Hin).
      rewrite <- rev_app_distr. reflexivity.
    + rewrite <- List.app_assoc. reflexivity.
Qed.

(** X5: a dictionary display keeps one entry per key, at the place where
    the key first occurs and with the value the display gives for it
    last. *)
Theorem dict_literal_last_wins items k :
  List.NoDup (keys (dict_literal items))
  /\ keys (dict_literal items)
     = rev (nodup string_dec (rev (map fst items)))
  /\ dict_get (dict_literal items) k = dict_get (rev items) k.
Proof.
  unfold dict_literal. split; [|split].
  - apply dict_literal_fold_NoDup. constructor.
  - rewrite dict_literal_fold_keys by constructor. reflexivity.
  - rewrite dict_literal_fold. destruct (dict_get (rev items) k); reflexivity.
Qed.

(** ** Integers as byte strings *)

Lemma byte_length_min n :
  0 < n -> 256 ^ Z.of_nat (byte_length n - 1) <= n.
Proof.
  intros Hn. unfold byte_length.
  pose proof (Z.log2_nonneg n) as Hl.
  pose proof (Z.div_pos (Z.log2 n) 8 Hl ltac:(lia)) as Hq.
  replace (Z.of_nat (Z.to_nat (Z.log2 n / 8 + 1) - 1)) with (Z.log2 n / 8)
    by lia.
  change 256 with (2 ^ 8). rewrite <- Z.pow_mul_r by lia.
  pose proof (Z.mul_div_le (Z.log2 n) 8 ltac:(lia)).
  pose proof (Z.log2_spec n Hn) as [Hlo _].
  pose proof (Z.pow_le_mono_r 2 (8 * (Z.log2 n / 8)) (Z.log2 n)
                ltac:(lia) ltac:(lia)).
  lia.
Qed.

Lemma byte_length_large n :
  2 ^ 256 <= n -> (33 <= byte_length n)%nat.
Proof.
  intros Hn. unfold byte_length.
  assert (256 <= Z.log2 n) as Hl.
  { change 256 with (Z.log2 (2 ^ 256)). apply Z.log2_le_mono. exact Hn. }
  pose proof (Z.div_le_mono 256 (Z.log2 n) 8 ltac:(lia) Hl) as Hq.
  change (256 / 8) with 32 in Hq. lia.
Qed.

(** X6: [to_bytes] reads back as the integer and is its shortest
    big-endian encoding: at least one byte, and no leading zero byte
    unless the integer is zero. *)
Theorem to_bytes_shortest n :
  0 <= n ->
  big_endian_to_int (to_bytes n) = n
  /\ wf_bytes (to_bytes n)
  /\ (1 <= length (to_bytes n))%nat
  /\ (n = 0 /\ to_bytes n = [0]
      \/ 256 ^ Z.of_nat (length (to_bytes n) - 1) <= n).
Proof.
  intros Hn. split; [apply to_bytes_value; exact Hn|].
  split; [apply be_bytes_wf|]. rewrite to_bytes_length.
  split.
  - unfold byte_length. pose proof (Z.log2_nonneg n).
    pose proof (Z.div_pos (Z.log2 n) 8). lia.
  - destruct (Z.eq_dec n 0) as [-> | Hz].
    + left. split; reflexivity.
    + right. apply byte_length_min. lia.
Qed.

Lemma to_bytes_shortest_witness :
  0 <= 2 ^ 248
  /\ big_endian_to_int (to_bytes (2 ^ 248)) = 2 ^ 248
  /\ wf_bytes (to_bytes (2 ^ 248))
  /\ (1 <= length (to_bytes (2 ^ 248)))%nat
  /\ (2 ^ 248 = 0 /\ to_bytes (2 ^ 248) = [0]
      \/ 256 ^ Z.of_nat (length (to_bytes (2 ^ 248)) - 1) <= 2 ^ 248).
Proof.
  assert (0 <= 2 ^ 248) as H by discriminate.
  split; [exact H|]. exact (to_bytes_shortest _ H).
Defined.

(** X7: [to_bytes(n).rjust(32, b'\0')] is a [bytes32] argument, with
    value [n], exactly when [n < 2^256]; a larger value is never
    truncated, it stays longer than 32 bytes and is refused. *)
Theorem rjust_bytes32_exact n :
  0 <= n ->
  abi_bytes32 (rjust 32 0 (to_bytes n))
  = if n <? 2 ^ 256 then Some n else None.
Proof.
  intros Hn. destruct (Z.ltb_spec n (2 ^ 256)) as [L | L].
  - apply rjust_to_bytes. lia.
  - pose proof (byte_length_large n L) as Hb.
    unfold rjust, abi_bytes32. rewrite to_bytes_length.
    destruct (Nat.leb_spec 32 (byte_length n)) as [_ | ?]; [|lia].
    rewrite to_bytes_length.
    destruct (Nat.eqb_spec (byte_length n) 32); [lia | reflexivity].
Qed.

Lemma rjust_bytes32_exact_witness :
  0 <= 2 ^ 256 /\ abi_bytes32 (rjust 32 0 (to_bytes (2 ^ 256))) = None.
Proof.
  assert (0 <= 2 ^ 256) as H by discriminate.
  split; [exact H | exact (rjust_bytes32_exact _ H)].
Defined.

(** ** The packed message *)

Lemma be_bytes_inj n x y :
  0 <= x < 256 ^ Z.of_nat n -> 0 <= y < 256 ^ Z.of_nat n ->
  be_bytes n x = be_bytes n y -> x = y.
Proof.
  intros Hx Hy E. apply (f_equal big_endian_to_int) in E.
  rewrite !be_bytes_value, !Z.mod_small in E by assumption. exact E.
Qed.

(** X8: with a 32-byte credential type and hash and 160-bit addresses,
    the packed message that is hashed determines all four fields. *)
Theorem encode_packed_injective u t h c u' t' h' c' :
  0 <= u < 2 ^ 160 -> 0 <= u' < 2 ^ 160 ->
  0 <= c < 2 ^ 160 -> 0 <= c' < 2 ^ 160 ->
  length t = 32%nat -> length t' = 32%nat ->
  length h = 32%nat -> length h' = 32%nat ->
  encode_packed [Address u; Bytes32 t; Bytes32 h; Address c]
  = encode_packed [Address u'; Bytes32 t'; Bytes32 h'; Address c'] ->
  u = u' /\ t = t' /\ h = h' /\ c = c'.
Proof.
  intros Hu Hu' Hc Hc' Ht Ht' Hh Hh' E.
  unfold encode_packed in E. cbn [map concat hex_encode_abi_type] in E.
  rewrite !app_nil_r in E.
  apply app_inj_1 in E as [Eu E]; [|rewrite !be_bytes_length; reflexivity].
  apply app_inj_1 in E as [Et E]; [|congruence].
  apply app_inj_1 in E as [Eh Ec]; [|congruence].
  change (2 ^ 160) with (256 ^ Z.of_nat 20) in *.
  repeat split; try assumption; eapply be_bytes_inj; eassumption.
Qed.

Lemma encode_packed_injective_witness :
  Issuer.user = Issuer.user
  /\ Issuer.credential_type_hash Issuer.label = keccak (encode "PERSONAL")
  /\ Issuer.credential_hash Issuer.data
     = keccak (encode (json_dumps Issuer.data))
  /\ Issuer.CONTRACT = Govt.CONTRACT.
Proof.
  apply encode_packed_injective;
    try (apply keccak_length); try (vm_compute; split; [discriminate | reflexivity]).
  reflexivity.
Defined.

(** ** The personal-message framing *)

Lemma int_of_digits_snoc ds d :
  int_of_digits (ds ++ [d]) = int_of_digits ds * 10 + (d - 48).
Proof. unfold int_of_digits. rewrite fold_left_app. reflexivity. Qed.

Lemma dec_digits_S fuel n acc :
  dec_digits (S fuel) n acc =
  if n / 10 =? 0 then (48 + n mod 10) :: acc
  else dec_digits fuel (n / 10) ((48 + n mod 10) :: acc).
Proof. reflexivity. Qed.

Lemma dec_digits_spec fuel : forall n acc,
  0 <= n < 10 ^ Z.of_nat (S fuel) ->
  exists ds,
    dec_digits (S fuel) n acc = ds ++ acc
    /\ Forall (fun b => 48 <= b <= 57) ds
    /\ int_of_digits ds = n
    /\ (n = 0 /\ ds = [48]
        \/ 0 < n /\ hd 48 ds <> 48
           /\ 10 ^ Z.of_nat (length ds) <= 10 * n
           /\ n < 10 ^ Z.of_nat (length ds)).
Proof.
  induction fuel as [|fuel IH]; intros n acc Hn.
  - change (10 ^ Z.of_nat 1) with 10 in Hn.
    exists [48 + n mod 10]. cbn [dec_digits].
    rewrite (Z.div_small n 10) by lia. cbn [Z.eqb app].
    rewrite Z.mod_small by lia.
    split; [reflexivity|]. split; [repeat constructor; lia|].
    split; [unfold int_of_digits; cbn; lia|].
    destruct (Z.eq_dec n 0) as [-> | Hnz]; [left; split; reflexivity|].
    right. cbn [hd length]. change (10 ^ Z.of_nat 1) with 10. lia.
  - rewrite (dec_digits_S (S fuel)).
    pose proof (Z.mod_pos_bound n 10 ltac:(lia)) as Hm.
    pose proof (Z.div_mod n 10 ltac:(lia)) as Hd.
    destruct (Z.eqb_spec (n / 10) 0) as [Hq | Hq].
    + exists [48 + n mod 10]. split; [reflexivity|].
      split; [repeat constructor; lia|].
      split; [unfold int_of_digits; cbn; lia|].
      destruct (Z.eq_dec n 0) as [-> | Hnz]; [left; split; reflexivity|].
      right. cbn [hd length]. change (10 ^ Z.of_nat 1) with 10. lia.
    + assert (0 <= n / 10 < 10 ^ Z.of_nat (S fuel)) as Hq'.
      { split; [apply Z.div_pos; lia|].
        apply Z.div_lt_upper_bound; [lia|].
        rewrite <- Z.pow_succ_r by lia. rewrite <- Nat2Z.inj_succ. lia. }
      destruct (IH (n / 10) ((48 + n mod 10) :: acc) Hq')
        as (ds & E & Hds & Hv & Hlead).
      exists (ds ++ [48 + n mod 10]). rewrite E, <- List.app_assoc.
      split; [reflexivity|].
      split; [apply Forall_app; split;
              [exact Hds | repeat constructor; lia]|].
      split; [rewrite int_of_digits_snoc, Hv; lia|].
      right. split; [lia|].
      destruct Hlead as [[Hz _] | (_ & Hh & Hlo & Hhi)]; [lia|].
      rewrite length_app. cbn [length].
      replace (Z.of_nat (length ds + 1)) with (Z.succ (Z.of_nat (length ds)))
        by lia.
      rewrite Z.pow_succ_r by lia.
      split; [|lia].
      destruct ds as [|d ds]; [|exact Hh].
      exfalso. apply Hq. rewrite <- Hv. reflexivity.
Qed.

(** X9: the length in the personal-message header is written in decimal
    digits, without a leading zero, and reads back as the length. *)
Theorem str_of_len_decimal n :
  Forall (fun b => 48 <= b <= 57) (str_of_len n)
  /\ int_of_digits (str_of_len n) = Z.of_nat n
  /\ (n = 0%nat /\ str_of_len n = [48]
      \/ (0 < n)%nat /\ hd 48 (str_of_len n) <> 48).
Proof.
  unfold str_of_len.
  assert (0 <= Z.of_nat n < 10 ^ Z.of_nat (S n)) as Hn.
  { split; [lia|]. rewrite Nat2Z.inj_succ, Z.pow_succ_r by lia.
    pose proof (Z.pow_gt_lin_r 10 (Z.of_nat n) ltac:(lia) ltac:(lia)). lia. }
  destruct (dec_digits_spec n (Z.of_nat n) [] Hn)
    as (ds & E & Hds & Hv & Hlead).
  rewrite E, app_nil_r. split; [exact Hds|]. split; [exact Hv|].
  destruct Hlead as [[Hz ->] | (Hp & Hh & _)].
  - left. split; [lia | reflexivity].
  - right. split; [lia | exact Hh].
Qed.

Lemma str_of_len_bounds n :
  (n = 0%nat /\ length (str_of_len n) = 1%nat)
  \/ (0 < n)%nat
     /\ 10 ^ Z.of_nat (length (str_of_len n)) <= 10 * Z.of_nat n
     /\ Z.of_nat n < 10 ^ Z.of_nat (length (str_of_len n)).
Proof.
  unfold str_of_len.
  assert (0 <= Z.of_nat n < 10 ^ Z.of_nat (S n)) as Hn.
  { split; [lia|]. rewrite Nat2Z.inj_succ, Z.pow_succ_r by lia.
    pose proof (Z.pow_gt_lin_r 10 (Z.of_nat n) ltac:(lia) ltac:(lia)). lia. }
  destruct (dec_digits_spec n (Z.of_nat n) [] Hn)
    as (ds & E & _ & _ & Hlead).
  rewrite E, app_nil_r.
  destruct Hlead as [[Hz ->] | (Hp & _ & Hlo & Hhi)].
  - left. split; [lia | reflexivity].
  - right. split; [lia|]. split; assumption.
Qed.

Lemma str_of_len_length_mono n1 n2 :
  (n1 < n2)%nat -> (length (str_of_len n1) <= length (str_of_len n2))%nat.
Proof.
  intros Hlt.
  destruct (str_of_len_bounds n2) as [[-> _] | (H2 & Hlo2 & Hhi2)]; [lia|].
  destruct (str_of_len_bounds n1) as [[-> ->] | (H1 & Hlo1 & Hhi1)].
  - destruct (length (str_of_len n2)) as [|l]; [|lia].
    change (10 ^ Z.of_nat 0) with 1 in Hhi2. lia.
  - assert (10 ^ Z.of_nat (length (str_of_len n1))
            < 10 ^ Z.succ (Z.of_nat (length (str_of_len n2)))) as Hp
      by (rewrite Z.pow_succ_r by lia; lia).
    apply Z.pow_lt_mono_r_iff in Hp; lia.
Qed.

(** X10: the personal-message framing is unambiguous: the bytes that
    are hashed determine the message. *)
Theorem encode_defunct_unambiguous m1 m2 :
  [25] ++ version (encode_defunct m1) ++ header (encode_defunct m1)
       ++ body (encode_defunct m1)
  = [25] ++ version (encode_defunct m2) ++ header (encode_defunct m2)
         ++ body (encode_defunct m2) ->
  m1 = m2.
Proof.
  unfold encode_defunct. cbn [version header body]. intros E.
  apply app_inv_head in E. apply app_inv_head in E.
  rewrite <- !List.app_assoc in E.
  apply app_inv_head in E. apply app_inv_head in E.
  assert (length m1 = length m2) as Hlen.
  { pose proof (f_equal (@length Z) E) as HL. rewrite !length_app in HL.
    destruct (Nat.lt_trichotomy (length m1) (length m2)) as [H | [H | H]];
      [|exact H|].
    - pose proof (str_of_len_length_mono _ _ H). lia.
    - pose proof (str_of_len_length_mono _ _ H). lia. }
  rewrite Hlen in E. apply app_inv_head in E. exact E.
Qed.

Lemma encode_defunct_unambiguous_witness :
  [25] ++ version (encode_defunct [1; 2; 3])
       ++ header (encode_defunct [1; 2; 3]) ++ body (encode_defunct [1; 2; 3])
  = [25] ++ version (encode_defunct (be_bytes 3 66051))
         ++ header (encode_defunct (be_bytes 3 66051))
         ++ body (encode_defunct (be_bytes 3 66051))
  /\ [1; 2; 3] = be_bytes 3 66051.
Proof.
  assert ([25] ++ version (encode_defunct [1; 2; 3])
               ++ header (encode_defunct [1; 2; 3])
               ++ body (encode_defunct [1; 2; 3])
          = [25] ++ version (encode_defunct (be_bytes 3 66051))
                 ++ header (encode_defunct (be_bytes 3 66051))
                 ++ body (encode_defunct (be_bytes 3 66051))) as H
    by reflexivity.
  split; [exact H | exact (encode_defunct_unambiguous _ _ H)].
Defined.

(** ** Signatures *)

Lemma inv_loop_S fuel lm hm low high :
  Secp256k1.inv_loop (S fuel) lm hm low high =
  if 1 <? low
  then Secp256k1.inv_loop fuel (hm - lm * (high / low)) lm
         (high - low * (high / low)) low
  else lm.
Proof. reflexivity. Qed.

(** The loop keeps [lm * a = low] and [hm * a = high] modulo [n]; the
    product [low * high] at least halves with every turn. *)
Lemma inv_loop_inverse a n fuel : forall lm hm low high,
  1 <= low < high -> Z.gcd low high = 1 ->
  (lm * a) mod n = low mod n -> (hm * a) mod n = high mod n ->
  low * high < 2 ^ Z.of_nat fuel ->
  (Secp256k1.inv_loop fuel lm hm low high * a) mod n = 1 mod n.
Proof.
  induction fuel as [|fuel IH]; intros lm hm low high Hlow Hgcd Hlm Hhm Hfuel.
  - change (2 ^ Z.of_nat 0) with 1 in Hfuel. nia.
  - rewrite inv_loop_S. destruct (Z.ltb_spec 1 low) as [L | L].
    + pose proof (Z.div_mod high low ltac:(lia)) as Hd.
      pose proof (Z.mod_pos_bound high low ltac:(lia)) as Hm.
      assert (high - low * (high / low) = high mod low) as Hnew by lia.
      assert (1 <= high / low) as Hq
        by (apply Z.div_le_lower_bound; lia).
      assert (Z.gcd (high mod low) low = 1) as Hgcd'.
      { rewrite Z.gcd_mod by lia. exact Hgcd. }
      assert (high mod low <> 0) as Hnz.
      { intros E. rewrite E in Hgcd'. rewrite Z.gcd_0_l in Hgcd'. lia. }
      rewrite Hnew. apply IH.
      * lia.
      * exact Hgcd'.
      * rewrite <- Hnew, Z.mul_sub_distr_r, Zminus_mod, Hhm.
        rewrite <- (Z.mul_assoc lm), (Z.mul_comm (high / low)),
          (Z.mul_assoc lm), (Zmult_mod (lm * a)), Hlm.
        rewrite <- Zmult_mod, <- Zminus_mod. reflexivity.
      * exact Hlm.
      * rewrite Nat2Z.inj_succ, Z.pow_succ_r in Hfuel by lia. nia.
    + assert (low = 1) as -> by lia. exact Hlm.
Qed.

Lemma inv_is_inverse a n :
  1 < n < 2 ^ 512 -> Z.gcd a n = 1 ->
  (Secp256k1.inv a n * a) mod n = 1
  /\ 0 <= Secp256k1.inv a n < n.
Proof.
  intros Hn Hgcd. unfold Secp256k1.inv.
  destruct (Z.eqb_spec a 0) as [-> | Ha].
  { rewrite Z.gcd_0_l in Hgcd. lia. }
  split; [|apply Z.mod_pos_bound; lia].
  rewrite Zmult_mod_idemp_l.
  pose proof (Z.mod_pos_bound a n ltac:(lia)) as Hm.
  assert (Z.gcd (a mod n) n = 1) as Hg by (rewrite Z.gcd_mod_l; exact Hgcd).
  assert (a mod n <> 0) as Hnz.
  { intros E. rewrite E, Z.gcd_0_l in Hg. lia. }
  rewrite (inv_loop_inverse a n 1024 1 0 (a mod n) n).
  - apply Z.mod_small. lia.
  - lia.
  - exact Hg.
  - rewrite Z.mul_1_l, Z.mod_mod by lia. reflexivity.
  - rewrite Z.mul_0_l, Z.mod_0_l, Z.mod_same by lia. reflexivity.
  - change (2 ^ Z.of_nat 1024) with (2 ^ 512 * 2 ^ 512). nia.
Qed.

(** X11: for a modulus below [2^512] and an argument coprime to it,
    [inv] returns the modular inverse, reduced; the loop always ends
    within its bound. *)
Theorem inv_is_modular_inverse a n :
  1 < n < 2 ^ 512 -> Z.gcd a n = 1 ->
  (Secp256k1.inv a n * a) mod n = 1
  /\ 0 <= Secp256k1.inv a n < n.
Proof. apply inv_is_inverse. Qed.

Lemma inv_is_modular_inverse_witness :
  1 < Secp256k1.N < 2 ^ 512
  /\ Z.gcd Scenario.nonce Secp256k1.N = 1
  /\ (Secp256k1.inv Scenario.nonce Secp256k1.N * Scenario.nonce)
       mod Secp256k1.N = 1
  /\ 0 <= Secp256k1.inv Scenario.nonce Secp256k1.N < Secp256k1.N.
Proof.
  assert (1 < Secp256k1.N < 2 ^ 512) as H1 by (split; reflexivity).
  assert (Z.gcd Scenario.nonce Secp256k1.N = 1) as H2
    by (vm_compute; reflexivity).
  split; [exact H1|]. split; [exact H2|].
  exact (inv_is_modular_inverse _ _ H1 H2).
Defined.

(** X12: with a nonce coprime to the group order, a signature satisfies
    the signing equation [s * k = z + r * d] modulo [N], up to the sign
    that the low-s form chooses. *)
Theorem signature_equation m key k :
  Z.gcd k Secp256k1.N = 1 ->
  let sg := sign_message m key k in
  let z := big_endian_to_int (messageHash sg) in
  (sig_s sg * k) mod Secp256k1.N = (z + sig_r sg * key) mod Secp256k1.N
  \/ (sig_s sg * k) mod Secp256k1.N
     = (- (z + sig_r sg * key)) mod Secp256k1.N.
Proof.
  intros Hk. cbv zeta. rewrite messageHash_sign_message.
  unfold sign_message, Secp256k1.ecdsa_raw_sign.
  set (z := big_endian_to_int (hash_eip191_message m)).
  destruct (Secp256k1.fast_multiply Secp256k1.G k) as [r y].
  cbn [sig_s sig_r].
  assert (1 < Secp256k1.N < 2 ^ 512) as HN by (split; reflexivity).
  destruct (inv_is_inverse k Secp256k1.N HN Hk) as [Hinv _].
  set (e := z + r * key).
  assert (((Secp256k1.inv k Secp256k1.N * e) mod Secp256k1.N * k)
            mod Secp256k1.N = e mod Secp256k1.N) as Hraw.
  { rewrite Zmult_mod_idemp_l.
    replace (Secp256k1.inv k Secp256k1.N * e * k)
      with ((Secp256k1.inv k Secp256k1.N * k) * e) by ring.
    rewrite <- Zmult_mod_idemp_l, Hinv, Z.mul_1_l. reflexivity. }
  destruct (_ * 2 <? Secp256k1.N).
  - left. exact Hraw.
  - right. rewrite Z.mul_sub_distr_r, Zminus_mod, Hraw.
    rewrite <- (Z.mul_comm k), Z.mod_mul by lia.
    rewrite Z.sub_0_l, <- (Z.sub_0_l e), (Zminus_mod 0 e), Z.mod_0_l by lia.
    reflexivity.
Qed.

Lemma signature_equation_witness :
  Z.gcd Scenario.nonce Secp256k1.N = 1
  /\ (let sg :=
        sign_message
          (Issuer.message Issuer.CONTRACT Issuer.user Issuer.label
             Issuer.data)
          Issuer.PRIVATE_KEY Scenario.nonce in
      let z := big_endian_to_int (messageHash sg) in
      (sig_s sg * Scenario.nonce) mod Secp256k1.N
      = (z + sig_r sg * Issuer.PRIVATE_KEY) mod Secp256k1.N
      \/ (sig_s sg * Scenario.nonce) mod Secp256k1.N
         = (- (z + sig_r sg * Issuer.PRIVATE_KEY)) mod Secp256k1.N).
Proof.
  assert (Z.gcd Scenario.nonce Secp256k1.N = 1) as H
    by (vm_compute; reflexivity).
  split; [exact H | exact (signature_equation _ _ _ H)].
Defined.

(** X13: every signature is in low-s form: [v] is 27 or 28, [r] is a
    reduced coordinate and [s] lies in the lower half of the group
    order. *)
Theorem signature_is_low_s m key k :
  let sg := sign_message m key k in
  (sig_v sg = 27 \/ sig_v sg = 28)
  /\ 0 <= sig_r sg < Secp256k1.P
  /\ 0 <= sig_s sg /\ 2 * sig_s sg < Secp256k1.N.
Proof.
  cbv zeta. unfold sign_message, Secp256k1.ecdsa_raw_sign.
  set (z := big_endian_to_int (hash_eip191_message m)).
  pose proof (from_jacobian_range
    (Secp256k1.jacobian_multiply (Secp256k1.to_jacobian Secp256k1.G) k)) as Hr.
  unfold Secp256k1.fast_multiply.
  destruct (Secp256k1.from_jacobian _) as [r y]. cbn [fst snd] in Hr.
  set (s_raw := (Secp256k1.inv k Secp256k1.N * (z + r * key))
                  mod Secp256k1.N).
  assert (0 <= s_raw < Secp256k1.N) as Hs
    by (apply Z.mod_pos_bound; reflexivity).
  assert (y mod 2 = 0 \/ y mod 2 = 1) as Hy
    by (pose proof (Z.mod_pos_bound y 2); lia).
  cbn [sig_v sig_r sig_s].
  assert (Secp256k1.N mod 2 = 1) as Hodd by reflexivity.
  destruct (Z.ltb_spec (s_raw * 2) Secp256k1.N) as [L | L].
  - split; [destruct Hy as [-> | ->]; cbn; auto|]. split; [tauto|]. lia.
  - split; [destruct Hy as [-> | ->]; cbn; auto|]. split; [tauto|].
    split; [lia|].
    assert (s_raw * 2 <> Secp256k1.N).
    { intros E. rewrite <- E, Z.mod_mul in Hodd by lia. discriminate. }
    lia.
Qed.

Lemma skipn_wf (n : nat) bs : wf_bytes bs -> wf_bytes (skipn n bs).
Proof. intros H. apply Forall_drop. exact H. Qed.

(** X14: for every key the encoded public key is 64 bytes and the
    account address derived from it is a 160-bit value. *)
Theorem address_is_160_bits d :
  length (Secp256k1.private_key_to_public_key d) = 64%nat
  /\ wf_bytes (Secp256k1.private_key_to_public_key d)
  /\ 0 <= private_key_to_address d < 2 ^ 160.
Proof.
  unfold private_key_to_address, public_key_to_address,
    Secp256k1.private_key_to_public_key, Secp256k1.encode_raw_public_key.
  split; [rewrite length_app, !be_bytes_length; reflexivity|].
  split; [apply Forall_app; split; apply be_bytes_wf|].
  set (pub := be_bytes 32 _ ++ be_bytes 32 _).
  pose proof (big_endian_to_int_bound (skipn 12 (keccak pub))
                (skipn_wf 12 _ (keccak_wf pub))) as H.
  rewrite length_skipn, keccak_length in H. exact H.
Qed.

Lemma inv_1_P : Secp256k1.inv 1 Secp256k1.P = 1.
Proof. reflexivity. Qed.

(** X15: scalar multiplication takes the scalar modulo the group
    order; the scalar zero gives (0, 0), the scalar one gives the point
    back, as does the passage through Jacobian coordinates. *)
Theorem scalar_multiplication_edges a p n :
  Secp256k1.jacobian_multiply a n
  = Secp256k1.jacobian_multiply a (n mod Secp256k1.N)
  /\ Secp256k1.fast_multiply p 0 = (0, 0)
  /\ Secp256k1.fast_multiply p 1
     = (if snd p =? 0 then (0, 0)
        else (fst p mod Secp256k1.P, snd p mod Secp256k1.P))
  /\ Secp256k1.from_jacobian (Secp256k1.to_jacobian p)
     = (fst p mod Secp256k1.P, snd p mod Secp256k1.P).
Proof.
  assert (Secp256k1.from_jacobian (Secp256k1.to_jacobian p)
          = (fst p mod Secp256k1.P, snd p mod Secp256k1.P)) as Hrt.
  { unfold Secp256k1.from_jacobian, Secp256k1.to_jacobian.
    rewrite inv_1_P, !Z.pow_1_l, !Z.mul_1_r by lia. reflexivity. }
  split; [|split; [|split; [|exact Hrt]]].
  - unfold Secp256k1.jacobian_multiply.
    destruct (snd (fst a) =? 0); [reflexivity|]. cbn [orb].
    pose proof (Z.mod_pos_bound n Secp256k1.N ltac:(reflexivity)) as Hm.
    destruct (Z.eqb_spec n 0) as [-> | Hn]; [reflexivity|].
    destruct (Z.eqb_spec (n mod Secp256k1.N) 0) as [E | E].
    + destruct (Z.ltb_spec n 0) as [L | L]; cbn [orb];
        [rewrite E; reflexivity|].
      destruct (Z.leb_spec Secp256k1.N n) as [L' | L'];
        [rewrite E; reflexivity|].
      rewrite Z.mod_small in E by lia. contradiction.
    + destruct (Z.ltb_spec (n mod Secp256k1.N) 0) as [L0 | L0]; [lia|].
      destruct (Z.leb_spec Secp256k1.N (n mod Secp256k1.N)) as [L1 | L1];
        [lia|]. cbn [orb].
      destruct (Z.ltb_spec n 0) as [L | L]; cbn [orb]; [reflexivity|].
      destruct (Z.leb_spec Secp256k1.N n) as [L' | L']; [reflexivity|].
      rewrite Z.mod_small by lia. reflexivity.
  - unfold Secp256k1.fast_multiply, Secp256k1.jacobian_multiply.
    rewrite Z.eqb_refl, orb_true_r. reflexivity.
  - unfold Secp256k1.fast_multiply, Secp256k1.jacobian_multiply.
    cbn [Secp256k1.to_jacobian fst snd].
    destruct (snd p =? 0); [reflexivity|]. exact Hrt.
Qed.

(** ** The sponge and its digest *)

Lemma pad_length msg :
  length (Keccak.pad msg)
  = (length msg + (Keccak.rate - length msg mod Keccak.rate))%nat.
Proof.
  unfold Keccak.pad. cbv zeta.
  pose proof (Nat.mod_upper_bound (length msg) Keccak.rate
                ltac:(discriminate)) as Hm.
  unfold Keccak.rate in *.
  destruct (Nat.eqb_spec (136 - length msg mod 136) 1) as [E | E].
  - rewrite length_app, E. reflexivity.
  - rewrite !length_app, repeat_length. cbn [length]. lia.
Qed.

Lemma chunks_exact n fuel : forall bs,
  (0 < n)%nat -> (length bs <= fuel)%nat -> (length bs mod n = 0)%nat ->
  concat (Keccak.chunks fuel n bs) = bs
  /\ Forall (fun blk => length blk = n) (Keccak.chunks fuel n bs).
Proof.
  induction fuel as [|fuel IH]; intros bs Hn Hlen Hmod.
  - destruct bs; [split; [reflexivity | constructor] | cbn in Hlen; lia].
  - destruct bs as [|b bs]; [split; [reflexivity | constructor]|].
    cbn [Keccak.chunks]. set (l := b :: bs) in *.
    assert (n <= length l)%nat as Hge.
    { destruct (Nat.le_gt_cases n (length l)) as [H | H]; [exact H|].
      rewrite Nat.mod_small in Hmod by exact H.
      subst l. cbn [length] in Hmod. lia. }
    destruct (IH (skipn n l)) as [Hc Hf].
    + exact Hn.
    + rewrite length_skipn. subst l. cbn [length] in *. lia.
    + rewrite length_skipn.
      replace (length l) with ((length l - n) + 1 * n)%nat in Hmod by lia.
      rewrite Nat.Div0.mod_add in Hmod. exact Hmod.
    + cbn [concat]. rewrite Hc, firstn_skipn. split; [reflexivity|].
      constructor; [|exact Hf]. rewrite length_firstn. lia.
Qed.

(** X16: the sponge absorbs the message followed by 1 to 136 padding
    bytes, cut into whole 136-byte blocks that together are the padded
    message. *)
Theorem keccak_padding_blocks msg :
  firstn (length msg) (Keccak.pad msg) = msg
  /\ (length msg < length (Keccak.pad msg) <= length msg + 136)%nat
  /\ (length (Keccak.pad msg) mod 136 = 0)%nat
  /\ concat (Keccak.chunks (length (Keccak.pad msg)) 136 (Keccak.pad msg))
     = Keccak.pad msg
  /\ Forall (fun blk => length blk = 136%nat)
       (Keccak.chunks (length (Keccak.pad msg)) 136 (Keccak.pad msg)).
Proof.
  pose proof (pad_length msg) as HL. unfold Keccak.rate in HL.
  pose proof (Nat.mod_upper_bound (length msg) 136 ltac:(discriminate)) as Hm.
  assert (length (Keccak.pad msg) mod 136 = 0)%nat as Hmod.
  { rewrite HL.
    rewrite (Nat.div_mod_eq (length msg) 136) at 1.
    replace (136 * (length msg / 136) + length msg mod 136
             + (136 - length msg mod 136))%nat
      with ((length msg / 136 + 1) * 136)%nat by lia.
    apply Nat.Div0.mod_mul. }
  split; [|split; [lia | split; [exact Hmod|]]].
  - unfold Keccak.pad. cbv zeta.
    destruct (_ =? 1)%nat; rewrite firstn_app, Nat.sub_diag, firstn_all;
      cbn [firstn]; apply app_nil_r.
  - apply chunks_exact; [lia | lia | exact Hmod].
Qed.

(** X17: for every input the digest is 32 bytes, each in range, and so
    is always accepted, with its value, as a [bytes32] argument. *)
Theorem keccak_digest_is_bytes32 msg :
  length (keccak msg) = 32%nat
  /\ wf_bytes (keccak msg)
  /\ 0 <= big_endian_to_int (keccak msg) < 2 ^ 256
  /\ abi_bytes32 (keccak msg) = Some (big_endian_to_int (keccak msg))
  /\ be_bytes 32 (big_endian_to_int (keccak msg)) = keccak msg.
Proof.
  pose proof (big_endian_to_int_bound _ (keccak_wf msg)) as H.
  rewrite keccak_length in H.
  split; [apply keccak_length|]. split; [apply keccak_wf|].
  split; [exact H|]. split; [apply abi_bytes32_keccak | apply keccak_be_bytes].
Qed.



(** ** Checksummed addresses *)

Lemma hex_digit_spec d :
  0 <= d < 16 ->
  is_lower_hex_char (hex_digit d) = true /\ unhex (hex_digit d) = d.
Proof.
  intros Hd. replace d with (Z.of_nat (Z.to_nat d)) by lia.
  assert (Z.to_nat d < 16)%nat as Hn by lia.
  clear Hd. generalize dependent (Z.to_nat d). intros n Hn.
  do 16 (destruct n as [|n]; [split; reflexivity|]). lia.
Qed.

Lemma lower_hex_char_spec c :
  is_lower_hex_char c = true ->
  hex_digit (unhex c) = c
  /\ (0 <=? unhex c) && (unhex c <? 16) = true
  /\ lower c = c /\ lower (upper c) = c
  /\ is_hex_char c = true /\ is_hex_char (upper c) = true.
Proof.
  destruct c as [[] [] [] [] [] [] [] []]; intros H;
    try discriminate H; repeat split; reflexivity.
Qed.

Lemma hex_char_lower c :
  is_hex_char c = true -> is_lower_hex_char (lower c) = true.
Proof.
  destruct c as [[] [] [] [] [] [] [] []]; intros H;
    try discriminate H; reflexivity.
Qed.

Lemma hexlify_lower_hex bs :
  wf_bytes bs -> string_forallb is_lower_hex_char (hexlify bs) = true.
Proof.
  induction 1 as [|b bs Hb _ IH]; [reflexivity|].
  unfold is_byte in Hb. cbn [hexlify string_forallb].
  destruct (hex_digit_spec (b / 16)) as [-> _].
  { split; [apply Z.div_pos; lia | apply Z.div_lt_upper_bound; lia]. }
  destruct (hex_digit_spec (b mod 16)) as [-> _].
  { apply Z.mod_pos_bound. lia. }
  exact IH.
Qed.

Lemma hexlify_length bs :
  String.length (hexlify bs) = (2 * length bs)%nat.
Proof.
  induction bs as [|b bs IH]; [reflexivity|].
  cbn [hexlify String.length length]. rewrite IH. lia.
Qed.

Lemma unhexlify_hexlify bs : wf_bytes bs -> unhexlify (hexlify bs) = bs.
Proof.
  induction 1 as [|b bs Hb _ IH]; [reflexivity|].
  unfold is_byte in Hb. cbn [hexlify unhexlify].
  destruct (hex_digit_spec (b / 16)) as [_ ->].
  { split; [apply Z.div_pos; lia | apply Z.div_lt_upper_bound; lia]. }
  destruct (hex_digit_spec (b mod 16)) as [_ ->].
  { apply Z.mod_pos_bound. lia. }
  rewrite IH. f_equal. pose proof (Z.div_mod b 16). lia.
Qed.

Lemma nibbles_length bs : length (nibbles bs) = (2 * length bs)%nat.
Proof.
  unfold nibbles. induction bs as [|b bs IH]; [reflexivity|].
  cbn [flat_map app length]. rewrite IH. lia.
Qed.

Lemma checksum_case_spec norm : forall hash,
  string_forallb is_lower_hex_char norm = true ->
  (String.length norm <= length hash)%nat ->
  string_map lower (checksum_case norm hash) = norm
  /\ String.length (checksum_case norm hash) = String.length norm
  /\ string_forallb is_hex_char (checksum_case norm hash) = true.
Proof.
  induction norm as [|c norm IH]; intros hash Hhex Hlen.
  - destruct hash; repeat split; reflexivity.
  - destruct hash as [|h hash]; [cbn in Hlen; lia|].
    cbn [string_forallb] in Hhex. apply andb_true_iff in Hhex as [Hc Hn].
    cbn [String.length length] in Hlen.
    destruct (IH hash Hn ltac:(lia)) as (E1 & E2 & E3).
    destruct (lower_hex_char_spec c Hc) as (_ & _ & L1 & L2 & H1 & H2).
    cbn [checksum_case string_map String.length string_forallb].
    rewrite E1, E2, E3. destruct (7 <? h).
    + rewrite L2, H2. repeat split; reflexivity.
    + rewrite L1, H1. repeat split; reflexivity.
Qed.

Lemma string_map_length f s :
  String.length (string_map f s) = String.length s.
Proof.
  induction s as [|c s IH]; [reflexivity|].
  cbn [string_map String.length]. rewrite IH. reflexivity.
Qed.

Lemma string_map_lower_hex s :
  string_forallb is_hex_char s = true ->
  string_forallb is_lower_hex_char (string_map lower s) = true.
Proof.
  induction s as [|c s IH]; intros H; [reflexivity|].
  cbn [string_forallb string_map] in *.
  apply andb_true_iff in H as [Hc Hs].
  rewrite (hex_char_lower c Hc), (IH Hs). reflexivity.
Qed.

Lemma hexlify_unhexlify n : forall s,
  String.length s = (2 * n)%nat ->
  string_forallb is_lower_hex_char s = true ->
  hexlify (unhexlify s) = s
  /\ wf_bytes (unhexlify s) /\ length (unhexlify s) = n.
Proof.
  induction n as [|n IH]; intros s Hlen Hhex.
  - destruct s; [repeat split; constructor | discriminate].
  - destruct s as [|h [|l s]]; try (cbn in Hlen; lia).
    cbn [String.length] in Hlen. cbn [string_forallb] in Hhex.
    apply andb_true_iff in Hhex as [Hh Hhex].
    apply andb_true_iff in Hhex as [Hl Hs].
    destruct (IH s ltac:(lia) Hs) as (E & Hwf & Hn).
    destruct (lower_hex_char_spec h Hh) as (Eh & Bh & _).
    destruct (lower_hex_char_spec l Hl) as (El & Bl & _).
    apply andb_true_iff in Bh as [Bh1 Bh2].
    apply andb_true_iff in Bl as [Bl1 Bl2].
    apply Z.leb_le in Bh1, Bl1. apply Z.ltb_lt in Bh2, Bl2.
    cbn [unhexlify hexlify length].
    replace ((16 * unhex h + unhex l) / 16) with (unhex h)
      by (apply (Z.div_unique _ 16 _ (unhex l)); lia).
    replace ((16 * unhex h + unhex l) mod 16) with (unhex l)
      by (apply (Z.mod_unique _ 16 (unhex h)); lia).
    rewrite Eh, El, E, Hn. split; [reflexivity|]. split; [|reflexivity].
    constructor; [unfold is_byte; lia | exact Hwf].
Qed.

Lemma remove_0x_prefix_0x r :
  remove_0x_prefix (String "0" (String "x" r)) = r.
Proof. reflexivity. Qed.

Lemma normalized_address a :
  String.length (hexlify (be_bytes 20 a)) = 40%nat
  /\ string_forallb is_lower_hex_char (hexlify (be_bytes 20 a)) = true.
Proof.
  split.
  - rewrite hexlify_length, be_bytes_length. reflexivity.
  - apply hexlify_lower_hex, be_bytes_wf.
Qed.

(** X20: the checksummed form of an address is 42 characters, passes
    [is_checksum_address] and reads back as the 20 bytes of the
    address. *)
Theorem checksum_address_round_trip a :
  is_checksum_address (to_checksum_address a) = true
  /\ to_canonical_address (to_checksum_address a) = Some (be_bytes 20 a)
  /\ String.length (to_checksum_address a) = 42%nat.
Proof.
  destruct (normalized_address a) as [Hlen Hhex].
  unfold to_checksum_address, checksum_of_normalized.
  set (norm := hexlify (be_bytes 20 a)) in *.
  set (hash := nibbles (keccak (encode norm))).
  assert (String.length norm <= length hash)%nat as Hle.
  { subst hash. rewrite nibbles_length, keccak_length, Hlen. lia. }
  destruct (checksum_case_spec norm hash Hhex Hle) as (E1 & E2 & E3).
  assert (is_hex_address (String "0" (String "x" (checksum_case norm hash)))
          = true) as Haddr.
  { unfold is_hex_address. rewrite remove_0x_prefix_0x, E2, E3, Hlen.
    reflexivity. }
  split; [|split].
  - unfold is_checksum_address, to_checksum_address_str,
      to_normalized_address.
    rewrite Haddr, !remove_0x_prefix_0x, E1.
    unfold checksum_of_normalized. fold hash.
    rewrite String.eqb_refl. reflexivity.
  - unfold to_canonical_address, to_normalized_address.
    rewrite Haddr, !remove_0x_prefix_0x, E1. subst norm.
    rewrite unhexlify_hexlify by apply be_bytes_wf. reflexivity.
  - cbn [String.length]. rewrite E2, Hlen. reflexivity.
Qed.

(** X21: a string that passes [is_checksum_address] denotes 20 bytes and
    is exactly the checksummed form of the address it denotes; no other
    spelling of that address is accepted. *)
Theorem checksum_address_is_canonical s :
  is_checksum_address s = true ->
  exists bs,
    to_canonical_address s = Some bs
    /\ length bs = 20%nat /\ wf_bytes bs
    /\ s = to_checksum_address (big_endian_to_int bs).
Proof.
  unfold is_checksum_address, to_canonical_address, to_checksum_address_str,
    to_normalized_address.
  intros H. apply andb_true_iff in H as [Haddr Heq]. rewrite Haddr in *.
  rewrite remove_0x_prefix_0x in *. apply String.eqb_eq in Heq.
  unfold is_hex_address in Haddr.
  apply andb_true_iff in Haddr as [Hlen Hhex]. apply Nat.eqb_eq in Hlen.
  set (norm := string_map lower (remove_0x_prefix s)) in *.
  assert (String.length norm = (2 * 20)%nat) as Hn
    by (subst norm; rewrite string_map_length; exact Hlen).
  pose proof (string_map_lower_hex _ Hhex) as Hlow. fold norm in Hlow.
  destruct (hexlify_unhexlify 20 norm Hn Hlow) as (E & Hwf & Hl).
  exists (unhexlify norm).
  split; [reflexivity|]. split; [exact Hl|]. split; [exact Hwf|].
  unfold to_checksum_address.
  rewrite <- Hl at 1. rewrite be_bytes_of_int by exact Hwf.
  rewrite E. exact Heq.
Qed.

Lemma checksum_address_is_canonical_witness :
  is_checksum_address "0x006A536bcc5F927AF5a58c7bBef05eab36d4C87F" = true
  /\ exists bs,
       to_canonical_address "0x006A536bcc5F927AF5a58c7bBef05eab36d4C87F"
       = Some bs
       /\ length bs = 20%nat /\ wf_bytes bs
       /\ "0x006A536bcc5F927AF5a58c7bBef05eab36d4C87F"%string
          = to_checksum_address (big_endian_to_int bs).
Proof.
  assert (is_checksum_address "0x006A536bcc5F927AF5a58c7bBef05eab36d4C87F"
          = true) as H by (vm_compute; reflexivity).
  split; [exact H | exact (checksum_address_is_canonical _ H)].
Defined.

(** X22: the address literals of both scripts pass
    [is_checksum_address] and denote the addresses used above, and the
    checksummed address of issuer.py's account is, character for
    character, the authority that govt.py registers. *)
Theorem script_address_literals :
  is_checksum_address "0x006A536bcc5F927AF5a58c7bBef05eab36d4C87F" = true
  /\ to_canonical_address "0x006A536bcc5F927AF5a58c7bBef05eab36d4C87F"
     = Some (be_bytes 20 Issuer.CONTRACT)
  /\ Govt.CONTRACT = Issuer.CONTRACT
  /\ is_checksum_address "0x0076FeE06D650B33988addDee6A4a2f9A474112e" = true
  /\ to_canonical_address "0x0076FeE06D650B33988addDee6A4a2f9A474112e"
     = Some (be_bytes 20 Issuer.user)
  /\ is_checksum_address "0x0067CFc221eD96c6CaC29963413cd7B6449C8fa0" = true
  /\ to_canonical_address "0x0067CFc221eD96c6CaC29963413cd7B6449C8fa0"
     = Some (be_bytes 20 Govt.authority)
  /\ to_checksum_address (private_key_to_address Issuer.PRIVATE_KEY)
     = "0x0067CFc221eD96c6CaC29963413cd7B6449C8fa0"%string.
Proof.
  rewrite issuer_address.
  repeat apply conj; vm_compute; reflexivity.
Qed.

(** ** The sponge state stays within 64-bit lanes *)

Lemma lane_log2 x : 0 <= x -> (x < 2 ^ 64 <-> Z.log2 x < 64).
Proof.
  intros Hx. destruct (Z.eq_dec x 0) as [-> | Hz].
  - split; intros _; reflexivity.
  - apply Z.log2_lt_pow2. lia.
Qed.

Lemma lxor_lane a b : is_lane a -> is_lane b -> is_lane (Z.lxor a b).
Proof.
  unfold is_lane. intros [Ha Ha'] [Hb Hb'].
  assert (0 <= Z.lxor a b) as Hn by (apply Z.lxor_nonneg; tauto).
  split; [exact Hn|]. apply lane_log2; [exact Hn|].
  apply lane_log2 in Ha', Hb'; try assumption.
  pose proof (Z.log2_lxor a b Ha Hb). lia.
Qed.

Lemma land_lane a b : 0 <= a -> is_lane b -> is_lane (Z.land a b).
Proof.
  unfold is_lane. intros Ha [Hb Hb'].
  assert (0 <= Z.land a b) as Hn by (apply Z.land_nonneg; tauto).
  split; [exact Hn|]. apply lane_log2; [exact Hn|].
  apply lane_log2 in Hb'; try assumption.
  pose proof (Z.log2_land a b Ha Hb). lia.
Qed.

Lemma mask64_lane x : is_lane (Z.land x Keccak.mask64).
Proof.
  change Keccak.mask64 with (Z.ones 64). rewrite Z.land_ones by lia.
  apply Z.mod_pos_bound. reflexivity.
Qed.

Lemma rol64_lane x n : is_lane (Keccak.rol64 x n).
Proof. apply mask64_lane. Qed.

Lemma nth_lane i A : Forall is_lane A -> is_lane (nth i A 0).
Proof.
  intros H. revert i. induction H as [|a A Ha _ IH]; intros [|i]; cbn [nth];
    try (split; [lia | reflexivity]); [exact Ha | apply IH].
Qed.

Lemma map_lane {T} (f : T -> Z) l :
  (forall x, is_lane (f x)) -> Forall is_lane (map f l).
Proof. intros H. apply Forall_map, Forall_forall. intros x _. apply H. Qed.

Lemma rho_pi_lane A : Forall is_lane (Keccak.rho_pi A).
Proof.
  unfold Keccak.rho_pi. apply map_lane. intros i. apply rol64_lane.
Qed.

Lemma chi_lane B : Forall is_lane B -> Forall is_lane (Keccak.chi B).
Proof.
  intros H. unfold Keccak.chi. apply map_lane. intros i. cbv zeta.
  unfold Keccak.lane. apply lxor_lane; [apply nth_lane; exact H|].
  apply land_lane; [|apply nth_lane; exact H].
  apply Z.lxor_nonneg. split; intros _; [discriminate|].
  apply (nth_lane _ _ H).
Qed.

Lemma iota_lane rc A :
  is_lane rc -> Forall is_lane A -> Forall is_lane (Keccak.iota rc A).
Proof.
  intros Hrc H. destruct H as [|a A Ha HA]; [constructor|].
  cbn [Keccak.iota]. constructor; [apply lxor_lane; assumption | exact HA].
Qed.

Lemma RC_lane : Forall is_lane Keccak.RC.
Proof.
  unfold Keccak.RC.
  repeat (constructor; [split; [discriminate | reflexivity]|]). constructor.
Qed.

Lemma round_lane A rc : is_lane rc -> Forall is_lane (Keccak.round A rc).
Proof.
  intros Hrc. unfold Keccak.round.
  apply iota_lane; [exact Hrc|]. apply chi_lane, rho_pi_lane.
Qed.

Lemma rounds_lane rcs : forall A,
  Forall is_lane rcs -> Forall is_lane A ->
  Forall is_lane (fold_left Keccak.round rcs A).
Proof.
  induction rcs as [|rc rcs IH]; intros A Hrcs HA; [exact HA|].
  inversion Hrcs as [|? ? Hrc Hrest]; subst. cbn [fold_left].
  apply IH; [exact Hrest | apply round_lane; exact Hrc].
Qed.

Lemma keccak_f_lane A : Forall is_lane (Keccak.keccak_f A).
Proof.
  pose proof RC_lane as H. unfold Keccak.keccak_f.
  destruct Keccak.RC as [|rc rcs] eqn:E; [discriminate E|].
  inversion H as [|? ? Hrc Hrest]; subst. cbn [fold_left].
  apply rounds_lane; [exact Hrest | apply round_lane; exact Hrc].
Qed.

Lemma absorb_all_lane blocks : forall A,
  Forall is_lane A -> Forall is_lane (fold_left Keccak.absorb blocks A).
Proof.
  induction blocks as [|blk blocks IH]; intros A HA; [exact HA|].
  cbn [fold_left]. apply IH. apply keccak_f_lane.
Qed.

(** X23: whatever is absorbed, the permutation returns 25 lanes, each
    within 64 bits, and so the sponge state after the whole padded
    message is 25 such lanes. *)
Theorem keccak_state_is_64_bit A blk msg :
  Forall is_lane (Keccak.absorb A blk)
  /\ length (Keccak.absorb A blk) = 25%nat
  /\ Forall is_lane
       (fold_left Keccak.absorb
          (Keccak.chunks (length (Keccak.pad msg)) Keccak.rate
             (Keccak.pad msg))
          (repeat 0 25))
  /\ length
       (fold_left Keccak.absorb
          (Keccak.chunks (length (Keccak.pad msg)) Keccak.rate
             (Keccak.pad msg))
          (repeat 0 25)) = 25%nat.
Proof.
  split; [apply keccak_f_lane|]. split; [apply KeccakFacts.keccak_f_length|].
  split.
  - apply absorb_all_lane. repeat constructor; discriminate.
  - apply KeccakFacts.absorb_all_length. reflexivity.
Qed.

(** The digests of the empty message and of [abc], as published for
    Keccak-256. *)
Lemma keccak_known_answers :
  big_endian_to_int (keccak [])
  = 0xc5d2460186f7233c927e7db2dcc703c0e500b653ca82273b7bfad8045d85a470
  /\ big_endian_to_int (keccak (encode "abc"))
     = 0x4e03657aea45a94fc7d47ba826c8d667c0d1e6e33a64a036ec44f58fa12d6c45.
Proof. split; vm_compute; reflexivity. Qed.
